(** * docsPreProcessing.py: the protocol rewriter

    A shallow embedding of the text transformation of
    [src/docsPreProcessing.py] and its properties.

    The script reads [SwiftUI.swift], collects the names captured by two lazy
    regular expressions, removes duplicates through [dict.fromkeys], rewrites
    the text once per name with [str.replace], appends the result to
    [tempData.txt] and returns it.

    What is modelled is the way from the text that [reader.read()] returned
    (line 5) to the text that is written and returned (lines 11 to 21); the
    decoding of the file, its line ends and the errors of [open], [read] and
    [write] are outside of the model.

    Python strings are modelled as lists of characters; the characters are
    8-bit, the literals of the script being ASCII.  The three library
    calls the script relies on ([str.replace], [re.findall] on the two
    patterns of the script, [dict.fromkeys]) are modelled by executable
    functions; lines 11 to 21 are then transcribed line by line. *)

From Stdlib Require Import Ascii String List Arith Lia Bool Permutation.
Import ListNotations.

(** ** Python strings *)

Definition str := list ascii.

(** A string literal of the script. *)
Definition py (s : string) : str := list_ascii_of_string s.

(** The character written ["\n"] in the script. *)
Definition newline : ascii := "010"%char.

Definition str_eq_dec : forall a b : str, {a = b} + {a <> b} :=
  list_eq_dec ascii_dec.

Module PyStr.

(** [s.startswith(p)] *)
Fixpoint startswith (p s : str) : bool :=
  match p, s with
  | [], _ => true
  | _ :: _, [] => false
  | a :: p', b :: s' => Ascii.eqb a b && startswith p' s'
  end.

(** [old in s] *)
Fixpoint contains (old s : str) : bool :=
  startswith old s ||
  match s with
  | [] => false
  | _ :: s' => contains old s'
  end.

(** The scan of [s.replace(old, new)] for a non-empty [old]: left to right,
    an occurrence of [old] found at the current position is replaced and the
    scan resumes behind it, so replaced occurrences never overlap.  [skip]
    counts the characters of the occurrence just replaced that are still to
    be stepped over. *)
Fixpoint replace_from (skip : nat) (old new s : str) : str :=
  match s with
  | [] => []
  | c :: s' =>
      match skip with
      | S k => replace_from k old new s'
      | O =>
          if startswith old (c :: s')
          then new ++ replace_from (length old - 1) old new s'
          else c :: replace_from 0 old new s'
      end
  end.

(** [s.replace(old, new)].  With an empty [old] Python inserts [new] before
    every character and at the end. *)
Definition replace (old new s : str) : str :=
  match old with
  | [] => new ++ flat_map (fun c => c :: new) s
  | _ :: _ => replace_from 0 old new s
  end.

End PyStr.

(** ** The regular expressions of the script

    Both patterns have the shape [pre(.*?)post] with literal, non-empty [pre]
    and [post]: [' protocol (.*?) {'] and [' protocol (.*?) : '].  (A [{] that
    opens no repetition count is a literal in Python's [re].) *)

Module Re.

(** The lazy group [(.*?)] followed by the literal [post]: the group is
    extended one character at a time, never over a line break, until [post]
    matches right behind it. *)
Fixpoint lazy_dot_star (post s : str) : option str :=
  if PyStr.startswith post s then Some []
  else
    match s with
    | [] => None
    | c :: s' =>
        if Ascii.eqb c newline then None
        else option_map (cons c) (lazy_dot_star post s')
    end.

(** A match of [pre(.*?)post] starting at the first character of [s]: the
    text captured by the group. *)
Definition match_here (pre post s : str) : option str :=
  if PyStr.startswith pre s
  then lazy_dot_star post (skipn (length pre) s)
  else None.

(** The scan of [re.findall]: the leftmost match is reported, the scan
    resumes behind it.  [skip] counts the characters of the last match that
    are still to be stepped over. *)
Fixpoint findall_from (skip : nat) (pre post s : str) : list str :=
  match s with
  | [] => []
  | c :: s' =>
      match skip with
      | S k => findall_from k pre post s'
      | O =>
          match match_here pre post (c :: s') with
          | Some cap =>
              cap :: findall_from
                       (length pre + length cap + length post - 1)
                       pre post s'
          | None => findall_from 0 pre post s'
          end
      end
  end.

(** [re.findall(pre(.*?)post, s)]: with one group, the list of the captured
    texts of all non-overlapping matches, in document order. *)
Definition findall (pre post s : str) : list str :=
  findall_from 0 pre post s.

End Re.

(** ** [dict.fromkeys] followed by [list]

    A dictionary keeps its keys in insertion order; inserting a key that is
    already present leaves its position unchanged.  Only the keys matter to
    the script, so the dictionary is its list of keys. *)

Module Dict.

Definition setdefault (d : list str) (k : str) : list str :=
  if in_dec str_eq_dec k d then d else d ++ [k].

Definition fromkeys (keys : list str) : list str :=
  fold_left setdefault keys [].

End Dict.

(** ** The script *)

Definition pattern_pre : str := py " protocol ".
Definition pattern_A_post : str := py " {".
Definition pattern_B_post : str := py " : ".

(** Line 11 *)
Definition allProtocols (text : str) : list str :=
  Re.findall pattern_pre pattern_A_post text.

(** Line 12 *)
Definition moreProtocols (text : str) : list str :=
  Re.findall pattern_pre pattern_B_post text.

(** Lines 13 and 15 *)
Definition data (text : str) : list str :=
  Dict.fromkeys (allProtocols text ++ moreProtocols text).

(** Line 19 *)
Definition current (declaration : str) : str :=
  py " protocol " ++ declaration ++ py " {".

(** Line 20 *)
Definition new (declaration : str) : str :=
  py " protocol " ++ declaration ++ py "{ }" ++ [newline]
     ++ py "extension " ++ declaration ++ py " {".

(** Lines 19 to 21: one turn of the loop, on the current text. *)
Definition loop_body (text : str) (declaration : str) : str :=
  PyStr.replace (current declaration) (new declaration) text.

(** Lines 11 to 21: the text transformation, from the text read to the text
    returned. *)
Definition rewriteProtocols (text : str) : str :=
  fold_left loop_body (data text) text.

(** ** Notions the properties are stated with *)

(** [old] is a substring of [s]. *)
Definition occurs (old s : str) : Prop :=
  exists a b, s = a ++ old ++ b.

(** [s] has a substring of the shape [ protocol <name>post], the name running
    within one line. *)
Definition matches_pattern (post s : str) : Prop :=
  exists a d b,
    s = a ++ pattern_pre ++ d ++ post ++ b /\ ~ In newline d.

(** First occurrences, as the specification words it: a value is kept the
    first time it is seen and dropped afterwards. *)
Fixpoint keep_unseen (seen l : list str) : list str :=
  match l with
  | [] => []
  | x :: l' =>
      if in_dec str_eq_dec x seen then keep_unseen seen l'
      else x :: keep_unseen (x :: seen) l'
  end.

Definition first_occurrences (l : list str) : list str := keep_unseen [] l.

(** Character classes of names. *)
Definition is_space (c : ascii) : bool := Ascii.eqb c " ".
Definition is_brace (c : ascii) : bool := Ascii.eqb c "{".
Definition is_newline (c : ascii) : bool := Ascii.eqb c newline.

(** Whitespace, as [str.isspace] has it on ASCII text. *)
Definition is_whitespace (c : ascii) : bool :=
  let n := nat_of_ascii c in
  ((9 <=? n) && (n <=? 13)) || ((28 <=? n) && (n <=? 32)).

(** The empty name and the names made of whitespace only. *)
Definition blank (d : str) : bool := forallb is_whitespace d.

(** A name without opening brace and without line break. *)
Definition brace_free (d : str) : bool :=
  forallb (fun c => negb (is_brace c) && negb (is_newline c)) d.

(** A non-empty name without space, opening brace and line break, such as an
    identifier. *)
Definition plain (d : str) : bool :=
  match d with
  | [] => false
  | _ :: _ =>
      forallb (fun c => negb (is_space c) && negb (is_brace c)
                        && negb (is_newline c)) d
  end.

(** The graph of [s.replace(old, new)] for a non-empty [old], read off the
    scan: at an occurrence of [old] the replacement is written and the scan
    resumes behind the occurrence, elsewhere one character is copied. *)
Inductive replaced (old new : str) : str -> str -> Prop :=
| replaced_nil : replaced old new [] []
| replaced_hit t t' :
    replaced old new t t' ->
    replaced old new (old ++ t) (new ++ t')
| replaced_copy c s s' :
    PyStr.startswith old (c :: s) = false ->
    replaced old new s s' ->
    replaced old new (c :: s) (c :: s').

(** The texts [s1], ..., [sn] and [last] put together with [sep] behind each
    [si]. *)
Fixpoint join (sep : str) (segs : list str) (last : str) : str :=
  match segs with
  | [] => last
  | s :: segs' => s ++ sep ++ join sep segs' last
  end.

(** [join old segs last] cut at the occurrences of [old] a scan from the left
    finds: no occurrence of [old] starts inside a segment, and none is in
    [last]. *)
Definition leftmost (old : str) (segs : list str) (last : str) : bool :=
  forallb (fun s => negb (PyStr.contains old (s ++ removelast old))) segs
  && negb (PyStr.contains old last).

(** The number of places of [s] where [p] starts. *)
Fixpoint occurrences (p s : str) : nat :=
  (if PyStr.startswith p s then 1 else 0)
  + match s with
    | [] => 0
    | _ :: s' => occurrences p s'
    end.

(** A name within one line. *)
Definition one_line (d : str) : bool :=
  forallb (fun c => negb (is_newline c)) d.

(** [s] is [t] with characters left out: every character of [s] is in [t],
    in the same order. *)
Inductive subsequence : str -> str -> Prop :=
| subsequence_nil : subsequence [] []
| subsequence_keep c s t :
    subsequence s t -> subsequence (c :: s) (c :: t)
| subsequence_insert c s t :
    subsequence s t -> subsequence s (c :: t).

(** The names of [l] that are not in [excluded]. *)
Definition without (excluded l : list str) : list str :=
  filter (fun d => if in_dec str_eq_dec d excluded then false else true) l.

(** A name that is not empty, holds no opening brace and no line break, does
    not end in a space and does not hold [protocol ] followed by more. *)
Definition regular (d : str) : bool :=
  brace_free d
  && negb (is_space (last d " "%char))
  && negb (PyStr.contains (py "protocol ") d).

(** The texts [s1], ..., [sn] and [fin] put together with [f di] behind each
    [si], for pieces [(si, di)] of a text and a name. *)
Fixpoint mjoin (f : str -> str) (pieces : list (str * str)) (fin : str)
  : str :=
  match pieces with
  | [] => fin
  | (s, d) :: pieces' => s ++ f d ++ mjoin f pieces' fin
  end.

(** * Properties *)

(** Membership of a character in a literal of the script. *)
Ltac literal := cbv [py list_ascii_of_string In]; intuition discriminate.

(** ** Prefixes and substrings *)

Section Substrings.

Lemma startswith_spec (p s : str) :
  PyStr.startswith p s = true <-> exists r, s = p ++ r.
Proof.
  revert s. induction p as [|a p IH]; intros s; simpl.
  - split; [intros _; now exists s | reflexivity].
  - destruct s as [|b s].
    + split; [discriminate | intros [r Hr]; discriminate].
    + rewrite andb_true_iff, Ascii.eqb_eq, IH. split.
      * intros [-> [r ->]]. now exists r.
      * intros [r Hr]. injection Hr as -> ->. split; [reflexivity|now exists r].
Qed.

Lemma startswith_app (p r : str) : PyStr.startswith p (p ++ r) = true.
Proof. apply startswith_spec. now exists r. Qed.

Lemma startswith_false (p s : str) :
  PyStr.startswith p s = false <-> forall r, s <> p ++ r.
Proof.
  split.
  - intros H r ->. rewrite startswith_app in H. discriminate.
  - intros H. destruct (PyStr.startswith p s) eqn:E; [|reflexivity].
    apply startswith_spec in E as [r ->]. now elim (H r).
Qed.

Lemma startswith_length (p s : str) :
  PyStr.startswith p s = true -> length p <= length s.
Proof.
  intros [r ->]%startswith_spec. rewrite length_app. lia.
Qed.

Lemma occurs_here (old b : str) : occurs old (old ++ b).
Proof. now exists [], b. Qed.

Lemma occurs_cons (old s : str) (c : ascii) :
  occurs old s -> occurs old (c :: s).
Proof. intros (a & b & ->). now exists (c :: a), b. Qed.

Lemma occurs_cons_inv (old s : str) (c : ascii) :
  occurs old (c :: s) ->
  PyStr.startswith old (c :: s) = true \/ occurs old s.
Proof.
  intros ([|x a] & b & H).
  - left. apply startswith_spec. now exists b.
  - right. injection H as _ ->. now exists a, b.
Qed.

Lemma contains_spec (old s : str) :
  PyStr.contains old s = true <-> occurs old s.
Proof.
  induction s as [|c s IH]; simpl.
  - rewrite orb_false_r, startswith_spec. split.
    + intros [r Hr]. now exists [], r.
    + intros (a & b & H). symmetry in H.
      apply app_eq_nil in H as [-> H]. now exists b.
  - rewrite orb_true_iff, IH. split.
    + intros [[r ->]%startswith_spec | H].
      * apply occurs_here.
      * now apply occurs_cons.
    + apply occurs_cons_inv.
Qed.

Lemma contains_false (old s : str) :
  PyStr.contains old s = false <-> ~ occurs old s.
Proof.
  rewrite <- contains_spec. destruct (PyStr.contains old s); intuition congruence.
Qed.

End Substrings.

(** ** [str.replace] *)

Section Replace.

Variables old new : str.
Hypothesis old_nonempty : old <> [].

Lemma replace_from_skipn (k : nat) (s : str) :
  PyStr.replace_from k old new s
  = PyStr.replace_from 0 old new (skipn k s).
Proof.
  revert k. induction s as [|c s IH]; intros [|k]; simpl; auto.
Qed.

Lemma replace_eq (s : str) :
  PyStr.replace old new s = PyStr.replace_from 0 old new s.
Proof. unfold PyStr.replace. now destruct old. Qed.

Lemma replace_nil : PyStr.replace old new [] = [].
Proof. now rewrite replace_eq. Qed.

Lemma replace_hit (t : str) :
  PyStr.replace old new (old ++ t) = new ++ PyStr.replace old new t.
Proof.
  rewrite !replace_eq.
  assert (E : exists o old', old = o :: old')
    by (destruct old; [congruence | eauto]).
  destruct E as (o & old' & E).
  pose proof (startswith_app old t) as Hs.
  replace (old ++ t) with (o :: old' ++ t) in * by now rewrite E.
  cbn [PyStr.replace_from]. rewrite Hs, replace_from_skipn. do 2 f_equal.
  rewrite E. cbn [length]. rewrite Nat.sub_succ, Nat.sub_0_r.
  now rewrite skipn_app, skipn_all, Nat.sub_diag.
Qed.

Lemma replace_copy (c : ascii) (s : str) :
  PyStr.startswith old (c :: s) = false ->
  PyStr.replace old new (c :: s) = c :: PyStr.replace old new s.
Proof.
  intros H. rewrite !replace_eq. cbn [PyStr.replace_from]. now rewrite H.
Qed.

(** The function computes the graph: every text has its replaced text. *)
Lemma replace_replaced (s : str) : replaced old new s (PyStr.replace old new s).
Proof.
  remember (length s) as n eqn:Hn. revert s Hn.
  induction n as [n IH] using lt_wf_ind. intros s ->.
  destruct s as [|c s].
  - rewrite replace_nil. constructor.
  - destruct (PyStr.startswith old (c :: s)) eqn:E.
    + apply startswith_spec in E as [t E]. rewrite E, replace_hit.
      constructor. apply (IH (length t)); [|reflexivity].
      apply (f_equal (@length _)) in E. rewrite length_app in E.
      destruct old; [congruence|]. simpl in *. lia.
    + rewrite replace_copy by assumption. constructor; [assumption|].
      apply (IH (length s)); simpl; auto.
Qed.

(** A text without occurrence is returned as it is. *)
Lemma replace_absent (s : str) :
  ~ occurs old s -> PyStr.replace old new s = s.
Proof.
  induction s as [|c s IH]; intros H.
  - apply replace_nil.
  - rewrite replace_copy.
    + f_equal. apply IH. intros Ho. apply H. now apply occurs_cons.
    + apply startswith_false. intros r E. apply H. rewrite E.
      apply occurs_here.
Qed.

(** The replaced text is at least as long as the text when the replacement
    is at least as long as [old], and longer as soon as something was
    replaced by a longer text. *)
Lemma replaced_length (s r : str) :
  length old <= length new -> replaced old new s r -> length s <= length r.
Proof.
  intros Hl H. induction H; simpl; rewrite ?length_app; lia.
Qed.

Lemma replaced_longer (s r : str) :
  length old < length new -> replaced old new s r -> occurs old s ->
  length s < length r.
Proof.
  intros Hl H. induction H; intros Ho.
  - destruct Ho as (a & b & E). symmetry in E.
    apply app_eq_nil in E as [_ E]. apply app_eq_nil in E as [E _].
    contradiction.
  - apply replaced_length in H; [|lia]. rewrite !length_app. lia.
  - simpl. apply occurs_cons_inv in Ho as [Ho|Ho]; [congruence|].
    apply IHreplaced in Ho. lia.
Qed.

End Replace.

(** The first occurrence of [old] is replaced and the scan goes on behind it:
    [a] followed by [old] without its last character has no occurrence of
    [old] exactly when no occurrence starts inside [a]. *)
Lemma app_prefix_short (p x y r : str) :
  x ++ y = p ++ r -> length p <= length x -> exists r', x = p ++ r'.
Proof.
  revert x. induction p as [|c p IH]; intros x E Hl.
  - now exists x.
  - destruct x as [|d x]; [simpl in Hl; lia|].
    injection E as -> E. apply IH in E as [r' ->]; [|simpl in Hl; lia].
    now exists r'.
Qed.

Lemma replace_first (old new a b : str) :
  old <> [] ->
  PyStr.contains old (a ++ removelast old) = false ->
  PyStr.replace old new (a ++ old ++ b)
  = a ++ new ++ PyStr.replace old new b.
Proof.
  intros Hne. induction a as [|c a IH]; intros H.
  - cbn [app]. now apply replace_hit.
  - cbn [app]. rewrite replace_copy; trivial.
    + f_equal. apply IH. cbn [app PyStr.contains] in H.
      now apply orb_false_iff in H.
    + apply startswith_false. intros r E.
      apply contains_false in H. apply H.
      rewrite (app_removelast_last " "%char Hne) in E at 1.
      rewrite <- app_assoc, app_comm_cons, app_assoc in E.
      apply app_prefix_short in E as [r' ->].
      * apply occurs_here.
      * rewrite length_app. cbn [length].
        rewrite (app_removelast_last " "%char Hne) at 1.
        rewrite length_app. simpl. lia.
Qed.

(** ** [re.findall] on a pattern [pre(.*?)post] *)

Section Findall.

Variables pre post : str.

Lemma findall_from_skipn (k : nat) (s : str) :
  Re.findall_from k pre post s = Re.findall_from 0 pre post (skipn k s).
Proof.
  revert k. induction s as [|c s IH]; intros [|k]; simpl; auto.
Qed.

(** The scan, read on the text: the leftmost match is reported first and the
    scan resumes behind it; where no match starts, it moves on by one
    character. *)
Lemma findall_scan (c : ascii) (s : str) :
  pre <> [] ->
  Re.findall pre post (c :: s)
  = match Re.match_here pre post (c :: s) with
    | Some cap =>
        cap :: Re.findall pre post
                 (skipn (length pre + length cap + length post) (c :: s))
    | None => Re.findall pre post s
    end.
Proof.
  intros Hne. unfold Re.findall. cbn [Re.findall_from].
  destruct (Re.match_here pre post (c :: s)) as [cap|]; [|reflexivity].
  rewrite findall_from_skipn. do 2 f_equal.
  destruct pre as [|x pre']; [contradiction|].
  cbn [length plus]. now rewrite Nat.sub_succ, Nat.sub_0_r.
Qed.

(** What the lazy group captured is followed by [post] and holds no line
    break. *)
Lemma lazy_dot_star_sound (s cap : str) :
  Re.lazy_dot_star post s = Some cap ->
  (exists r, s = cap ++ post ++ r) /\ ~ In newline cap.
Proof.
  revert cap. induction s as [|c s IH]; intros cap; simpl.
  - destruct (PyStr.startswith post []) eqn:E; [|discriminate].
    intros [= <-]. apply startswith_spec in E as [r E].
    split; [now exists r | intros []].
  - destruct (PyStr.startswith post (c :: s)) eqn:E.
    + intros [= <-]. apply startswith_spec in E as [r E].
      split; [now exists r | intros []].
    + destruct (Ascii.eqb c newline) eqn:Ec; [discriminate|].
      destruct (Re.lazy_dot_star post s) as [cap'|]; [|discriminate].
      intros [= <-]. destruct (IH cap' eq_refl) as [[r ->] Hn].
      split; [now exists r|].
      intros [Hc|Hin]; [|contradiction].
      rewrite <- Hc, Ascii.eqb_refl in Ec. discriminate.
Qed.

(** The lazy group stops at the first place where [post] follows: [post]
    is no substring of what it captured. *)
Lemma lazy_dot_star_minimal (s cap : str) :
  post <> [] ->
  Re.lazy_dot_star post s = Some cap -> ~ occurs post cap.
Proof.
  intros Hne. revert cap. induction s as [|c s IH]; intros cap; simpl.
  - destruct (PyStr.startswith post []) eqn:E; [|discriminate].
    apply startswith_spec in E as [r E]. symmetry in E.
    apply app_eq_nil in E as [E _]. contradiction.
  - destruct (PyStr.startswith post (c :: s)) eqn:E.
    + intros [= <-] (a & b & Hab). symmetry in Hab.
      apply app_eq_nil in Hab as [_ Hab].
      apply app_eq_nil in Hab as [Hab _]. contradiction.
    + destruct (Ascii.eqb c newline); [discriminate|].
      destruct (Re.lazy_dot_star post s) as [cap'|] eqn:El; [|discriminate].
      intros [= <-] Ho. apply occurs_cons_inv in Ho as [Ho|Ho].
      * apply lazy_dot_star_sound in El as [[r ->] _].
        apply startswith_spec in Ho as [r1 Ho].
        rewrite app_comm_cons, Ho, <- app_assoc, startswith_app in E.
        discriminate.
      * now apply (IH cap').
Qed.

(** The lazy group succeeds whenever [post] follows within the line. *)
Lemma lazy_dot_star_complete (d b : str) :
  ~ In newline d -> Re.lazy_dot_star post (d ++ post ++ b) <> None.
Proof.
  induction d as [|c d IH]; intros Hn.
  - cbn [app]. destruct (post ++ b) eqn:E; simpl; rewrite <- E;
      rewrite startswith_app; discriminate.
  - cbn [app Re.lazy_dot_star].
    destruct (PyStr.startswith post (c :: d ++ post ++ b)); [discriminate|].
    destruct (Ascii.eqb c newline) eqn:Ec.
    + apply Ascii.eqb_eq in Ec. elim Hn. now left.
    + destruct (Re.lazy_dot_star post (d ++ post ++ b)) eqn:El;
        [discriminate|].
      exfalso. apply IH; [|reflexivity]. intros Hin. apply Hn. now right.
Qed.

Lemma match_here_sound (s cap : str) :
  Re.match_here pre post s = Some cap ->
  (exists r, s = pre ++ cap ++ post ++ r) /\ ~ In newline cap
  /\ (post <> [] -> ~ occurs post cap).
Proof.
  unfold Re.match_here.
  destruct (PyStr.startswith pre s) eqn:E; [|discriminate].
  apply startswith_spec in E as [t ->].
  rewrite skipn_app, skipn_all, Nat.sub_diag. cbn [app skipn].
  intros H. split; [|split].
  - apply lazy_dot_star_sound in H as [[r ->] _]. now exists r.
  - now apply lazy_dot_star_sound in H.
  - intros Hne. now apply lazy_dot_star_minimal with (s := t).
Qed.

Lemma match_here_complete (d b : str) :
  ~ In newline d -> Re.match_here pre post (pre ++ d ++ post ++ b) <> None.
Proof.
  intros Hn. unfold Re.match_here.
  rewrite startswith_app, skipn_app, skipn_all, Nat.sub_diag.
  cbn [app skipn]. now apply lazy_dot_star_complete.
Qed.

(** Every reported text is the capture of a match somewhere in the text. *)
Lemma findall_from_sound (k : nat) (s d : str) :
  In d (Re.findall_from k pre post s) ->
  exists a t, s = a ++ t /\ Re.match_here pre post t = Some d.
Proof.
  revert k. induction s as [|c s IH]; intros k; [intros []|].
  destruct k as [|k]; cbn [Re.findall_from].
  - destruct (Re.match_here pre post (c :: s)) as [cap|] eqn:E.
    + intros [<-|Hin].
      * now exists [], (c :: s).
      * apply IH in Hin as (a & t & -> & Ht). now exists (c :: a), t.
    + intros Hin. apply IH in Hin as (a & t & -> & Ht).
      now exists (c :: a), t.
  - intros Hin. apply IH in Hin as (a & t & -> & Ht).
    now exists (c :: a), t.
Qed.

Lemma findall_sound (s d : str) :
  In d (Re.findall pre post s) ->
  (exists a b, s = a ++ pre ++ d ++ post ++ b)
  /\ ~ In newline d /\ (post <> [] -> ~ occurs post d).
Proof.
  intros (a & t & -> & Ht)%findall_from_sound.
  apply match_here_sound in Ht as ([r ->] & Hn & Hp).
  split; [now exists a, r | now split].
Qed.

(** Something is reported as soon as the pattern matches somewhere. *)
Lemma findall_complete (a d b : str) :
  pre <> [] -> ~ In newline d ->
  Re.findall pre post (a ++ pre ++ d ++ post ++ b) <> [].
Proof.
  intros Hne Hn. unfold Re.findall. induction a as [|c a IH].
  - cbn [app]. pose proof (match_here_complete d b Hn) as Hm.
    destruct (pre ++ d ++ post ++ b) as [|c s] eqn:E.
    + apply app_eq_nil in E as [E _]. contradiction.
    + cbn [Re.findall_from].
      destruct (Re.match_here pre post (c :: s)); [discriminate|].
      contradiction.
  - cbn [app Re.findall_from].
    destruct (Re.match_here pre post (c :: a ++ pre ++ d ++ post ++ b));
      [discriminate | exact IH].
Qed.

End Findall.

(** ** [dict.fromkeys] *)

Section Fromkeys.

Lemma fromkeys_fold (l acc seen : list str) :
  (forall x, In x acc <-> In x seen) ->
  fold_left Dict.setdefault l acc = acc ++ keep_unseen seen l.
Proof.
  revert acc seen. induction l as [|x l IH]; intros acc seen H.
  - simpl. now rewrite app_nil_r.
  - cbn [fold_left keep_unseen]. unfold Dict.setdefault at 2.
    destruct (in_dec str_eq_dec x acc) as [Hi|Hi];
      destruct (in_dec str_eq_dec x seen) as [Hs|Hs];
      try (apply H in Hi; contradiction);
      try (apply H in Hs; contradiction).
    + now apply IH.
    + rewrite (IH (acc ++ [x]) (x :: seen)).
      * now rewrite <- app_assoc.
      * intros y. rewrite in_app_iff. simpl. rewrite H. tauto.
Qed.

Lemma fromkeys_first_occurrences (l : list str) :
  Dict.fromkeys l = first_occurrences l.
Proof.
  unfold Dict.fromkeys, first_occurrences.
  now rewrite (fromkeys_fold l [] []).
Qed.

Lemma keep_unseen_In (seen l : list str) (x : str) :
  In x (keep_unseen seen l) <-> In x l /\ ~ In x seen.
Proof.
  revert seen. induction l as [|y l IH]; intros seen; simpl.
  - tauto.
  - destruct (in_dec str_eq_dec y seen) as [Hy|Hy].
    + rewrite IH. split; [tauto|]. intros [[->|H] Hn]; tauto.
    + simpl. rewrite IH. simpl.
      destruct (str_eq_dec y x) as [->|Hne]; tauto.
Qed.

Lemma keep_unseen_NoDup (seen l : list str) : NoDup (keep_unseen seen l).
Proof.
  revert seen. induction l as [|y l IH]; intros seen; simpl.
  - constructor.
  - destruct (in_dec str_eq_dec y seen) as [Hy|Hy]; [apply IH|].
    constructor; [|apply IH].
    rewrite keep_unseen_In. simpl. tauto.
Qed.

Lemma fromkeys_In (l : list str) (x : str) :
  In x (Dict.fromkeys l) <-> In x l.
Proof.
  rewrite fromkeys_first_occurrences. unfold first_occurrences.
  rewrite keep_unseen_In. simpl. tauto.
Qed.

Lemma fromkeys_NoDup (l : list str) : NoDup (Dict.fromkeys l).
Proof.
  rewrite fromkeys_first_occurrences. apply keep_unseen_NoDup.
Qed.

End Fromkeys.

(** ** Where a substring of the replaced text comes from

    [P] is a text that cannot start inside a copy of [new], and that can run
    from the text before a copy of [new] into it only as far as [new] agrees
    with [old].  Then every occurrence of [P] in the replaced text was an
    occurrence of [P] in the text, at a place where [old] did not match. *)

Section Provenance.

Variables old new P : str.
Hypothesis P_nonempty : P <> [].
Hypothesis new_nonempty : new <> [].

Hypothesis not_inside :
  forall v w rest,
    new = v ++ w -> w <> [] -> PyStr.startswith P (w ++ rest) = false.

Hypothesis entering :
  forall u x rest,
    P = u ++ x -> u <> [] -> x <> [] ->
    PyStr.startswith x (new ++ rest) = true ->
    PyStr.startswith x old = true.

Lemma startswith_app_inv (p u y : str) :
  PyStr.startswith p (u ++ y) = true ->
  PyStr.startswith p u = true
  \/ exists x, x <> [] /\ p = u ++ x /\ PyStr.startswith x y = true.
Proof.
  intros [r E]%startswith_spec. symmetry in E.
  apply app_eq_app in E as [l [[-> ->]|[-> ->]]].
  - destruct l as [|c l].
    + left. rewrite app_nil_r. apply startswith_spec. exists [].
      now rewrite app_nil_r.
    + right. exists (c :: l). repeat split; [discriminate|].
      apply startswith_app.
  - left. apply startswith_app.
Qed.

Lemma occurs_app_inv (p x y : str) :
  occurs p (x ++ y) ->
  (exists v w, x = v ++ w /\ w <> [] /\ PyStr.startswith p (w ++ y) = true)
  \/ occurs p y.
Proof.
  induction x as [|c x IH]; intros H; [now right|].
  cbn [app] in H. apply occurs_cons_inv in H as [H|H].
  - left. exists [], (c :: x). repeat split; [discriminate | exact H].
  - apply IH in H as [(v & w & -> & Hw & H)|H]; [left|now right].
    exists (c :: v), w. now repeat split.
Qed.

(** A prefix of the replaced text, read behind any text [u], is a prefix
    of the text behind [u]. *)
Lemma replaced_startswith (s r : str) :
  replaced old new s r ->
  forall u,
    PyStr.startswith P (u ++ r) = true ->
    PyStr.startswith P (u ++ s) = true.
Proof.
  induction 1 as [|t t' Ht IH|c s s' Hc Hs IH]; intros u H.
  - exact H.
  - apply startswith_app_inv in H as [H|(x & Hx & EP & H)].
    + apply startswith_spec in H as [r ->].
      rewrite <- app_assoc. apply startswith_app.
    + destruct u as [|c u].
      * cbn [app] in EP. rewrite <- EP in H.
        now rewrite (not_inside [] new t' eq_refl new_nonempty) in H.
      * apply (entering (c :: u) x t' EP) in H;
          [|discriminate|assumption].
        apply startswith_spec in H as [r Hr].
        apply startswith_spec. exists (r ++ t).
        now rewrite EP, Hr, <- !app_assoc.
  - specialize (IH (u ++ [c])). rewrite <- !app_assoc in IH.
    now apply IH.
Qed.

Theorem replaced_occurs (s r : str) :
  replaced old new s r ->
  occurs P r ->
  exists a b, s = a ++ P ++ b /\ PyStr.startswith old (P ++ b) = false.
Proof.
  induction 1 as [|t t' Ht IH|c s s' Hc Hs IH]; intros Ho.
  - destruct Ho as (a & b & E). symmetry in E.
    apply app_eq_nil in E as [_ E]. apply app_eq_nil in E as [E _].
    contradiction.
  - apply occurs_app_inv in Ho as [(v & w & E & Hw & H)|Ho].
    + now rewrite (not_inside v w t' E Hw) in H.
    + destruct (IH Ho) as (a & b & -> & Hb).
      exists (old ++ a), b. now rewrite <- app_assoc.
  - apply occurs_cons_inv in Ho as [Ho|Ho].
    + apply (@replaced_startswith s s' Hs [c]) in Ho. cbn [app] in Ho.
      pose proof Ho as [b E]%startswith_spec.
      exists [], b. cbn [app]. rewrite <- E. now split.
    + destruct (IH Ho) as (a & b & -> & Hb).
      now exists (c :: a), b.
Qed.

End Provenance.

(** After [s.replace(old, new)] no occurrence of [old] is left, when [old]
    cannot start inside [new] nor run into it beyond what they share. *)
Lemma replace_clears (old new s : str) :
  old <> [] -> new <> [] ->
  (forall v w rest,
      new = v ++ w -> w <> [] -> PyStr.startswith old (w ++ rest) = false) ->
  (forall u x rest,
      old = u ++ x -> u <> [] -> x <> [] ->
      PyStr.startswith x (new ++ rest) = true ->
      PyStr.startswith x old = true) ->
  ~ occurs old (PyStr.replace old new s).
Proof.
  intros Ho Hn H1 H2 Hocc.
  destruct (@replaced_occurs old new old Ho Hn H1 H2 _ _
              (@replace_replaced old new Ho s) Hocc)
    as (a & b & _ & Hb).
  now rewrite startswith_app in Hb.
Qed.

(** A text [P] absent before [s.replace(old, new)] is absent after it, under
    the same two conditions on [P]. *)
Lemma replace_keeps_absent (old new P s : str) :
  old <> [] -> P <> [] -> new <> [] ->
  (forall v w rest,
      new = v ++ w -> w <> [] -> PyStr.startswith P (w ++ rest) = false) ->
  (forall u x rest,
      P = u ++ x -> u <> [] -> x <> [] ->
      PyStr.startswith x (new ++ rest) = true ->
      PyStr.startswith x old = true) ->
  ~ occurs P s -> ~ occurs P (PyStr.replace old new s).
Proof.
  intros Ho HP Hn H1 H2 Habs Hocc.
  destruct (@replaced_occurs old new P HP Hn H1 H2 _ _
              (@replace_replaced old new Ho s) Hocc)
    as (a & b & -> & _).
  apply Habs. now exists a, b.
Qed.

(** ** Splitting a text at a character *)

Section Splitting.

Variable c : ascii.

Lemma split_first_unique (x x' y y' : str) :
  ~ In c x -> ~ In c x' ->
  x ++ c :: y = x' ++ c :: y' -> x = x' /\ y = y'.
Proof.
  intros Hx Hx' E. apply app_eq_app in E as [l [[-> E]|[-> E]]];
    destruct l as [|d l].
  - rewrite app_nil_r. now injection E as ->.
  - injection E as <- _. elim Hx. apply in_or_app. right. now left.
  - rewrite app_nil_r. now injection E as ->.
  - injection E as <- _. elim Hx'. apply in_or_app. right. now left.
Qed.

Lemma split_last_unique (x x' y y' : str) :
  ~ In c y -> ~ In c y' ->
  x ++ c :: y = x' ++ c :: y' -> x = x' /\ y = y'.
Proof.
  intros Hy Hy' E. apply app_eq_app in E as [l [[-> E]|[-> E]]];
    destruct l as [|d l].
  - rewrite app_nil_r. now injection E as ->.
  - injection E as <- ->. elim Hy'. apply in_or_app. right. now left.
  - rewrite app_nil_r. now injection E as ->.
  - injection E as <- ->. elim Hy. apply in_or_app. right. now left.
Qed.

Lemma split_once_unique (x x' y y' : str) :
  ~ In c x -> ~ In c y ->
  x ++ c :: y = x' ++ c :: y' -> x = x' /\ y = y'.
Proof.
  intros Hx Hy E. apply app_eq_app in E as [l [[-> E]|[-> E]]];
    destruct l as [|d l].
  - rewrite app_nil_r. now injection E as ->.
  - injection E as <- _. elim Hx. apply in_or_app. right. now left.
  - rewrite app_nil_r. now injection E as ->.
  - injection E as <- ->. elim Hy. apply in_or_app. right. now left.
Qed.

Lemma split_at_first (l : str) :
  In c l -> exists l1 l2, l = l1 ++ c :: l2 /\ ~ In c l1.
Proof.
  induction l as [|x l IH]; intros H; [contradiction|].
  destruct (ascii_dec x c) as [->|Hne].
  - exists [], l. split; [reflexivity | intros []].
  - destruct H as [H|H]; [contradiction|].
    destruct (IH H) as (l1 & l2 & -> & Hn).
    exists (x :: l1), l2. split; [reflexivity|].
    intros [Hx|Hx]; [contradiction | now apply Hn].
Qed.

End Splitting.

(** ** Names *)

Section Names.

Lemma brace_free_spec (d : str) :
  brace_free d = true -> ~ In "{"%char d /\ ~ In newline d.
Proof.
  unfold brace_free. rewrite forallb_forall. intros H.
  split; intros Hin; apply H in Hin;
    unfold is_brace, is_newline in Hin; rewrite Ascii.eqb_refl in Hin;
    simpl in Hin; discriminate.
Qed.

Lemma plain_spec (d : str) :
  plain d = true ->
  d <> [] /\ ~ In " "%char d /\ ~ In "{"%char d /\ ~ In newline d.
Proof.
  destruct d as [|c d]; [discriminate|]. unfold plain.
  rewrite forallb_forall. intros H.
  split; [discriminate|].
  repeat split; intros Hin; apply H in Hin;
    unfold is_space, is_brace, is_newline in Hin;
    rewrite Ascii.eqb_refl in Hin; simpl in Hin; try discriminate;
    rewrite ?andb_false_r in Hin; discriminate.
Qed.

Lemma plain_brace_free (d : str) : plain d = true -> brace_free d = true.
Proof.
  destruct d as [|c d]; [discriminate|]. unfold plain, brace_free.
  rewrite !forallb_forall. intros H x Hx. apply H in Hx.
  now destruct (is_space x), (is_brace x), (is_newline x).
Qed.

Lemma regular_spec (d : str) :
  regular d = true ->
  brace_free d = true
  /\ (exists d0 e, d = d0 ++ [e] /\ e <> " "%char)
  /\ ~ occurs (py "protocol ") d.
Proof.
  unfold regular. intros [[Hb Hl]%andb_true_iff Hc]%andb_true_iff.
  split; [exact Hb|]. split.
  - destruct d as [|c d]; [discriminate Hl|].
    destruct (@exists_last _ (c :: d)) as (d0 & e & E); [discriminate|].
    rewrite E in *. exists d0, e. split; [reflexivity|].
    rewrite last_last in Hl. intros ->. discriminate Hl.
  - apply contains_false. now apply negb_true_iff in Hc.
Qed.

Lemma regular_brace_free (d : str) : regular d = true -> brace_free d = true.
Proof. now intros H%regular_spec. Qed.

Lemma plain_regular (d : str) : plain d = true -> regular d = true.
Proof.
  intros H. pose proof (plain_brace_free d H) as Hb.
  apply plain_spec in H as (Hne & Hsp & _).
  unfold regular. rewrite Hb. cbn [andb]. apply andb_true_iff. split.
  - destruct (exists_last Hne) as (d0 & e & ->). rewrite last_last.
    unfold is_space. destruct (Ascii.eqb e " ") eqn:E; [|reflexivity].
    apply Ascii.eqb_eq in E. subst e. elim Hsp.
    apply in_or_app. right. now left.
  - apply negb_true_iff, contains_false. intros (a & b & ->).
    apply Hsp. rewrite !in_app_iff. right. left. literal.
Qed.

End Names.

(** ** The two texts of a rule

    [current d] is [ protocol d ] followed by an opening brace; in [new d] the
    first opening brace comes right after [ protocol d], and the text after
    the line break is [extension d ] followed by an opening brace. *)

Section RuleTexts.

Lemma current_nonempty (d : str) : current d <> [].
Proof. discriminate. Qed.

Lemma new_nonempty (d : str) : new d <> [].
Proof. discriminate. Qed.

Lemma length_current (d : str) : length (current d) = 12 + length d.
Proof. unfold current. rewrite !length_app. simpl. lia. Qed.

Lemma length_new (d : str) : length (new d) = 26 + 2 * length d.
Proof. unfold new. rewrite !length_app. simpl. lia. Qed.

Lemma current_split (d : str) :
  current d = (py " protocol " ++ d ++ py " ") ++ ["{"%char].
Proof. unfold current. now rewrite <- !app_assoc. Qed.

Lemma new_split_brace (d : str) :
  new d = (py " protocol " ++ d)
            ++ "{"%char :: py " }" ++ newline :: py "extension " ++ d ++ py " {".
Proof. unfold new. now rewrite <- !app_assoc. Qed.

Lemma new_split_newline (d : str) :
  new d = (py " protocol " ++ d ++ py "{ }")
            ++ newline :: (py "extension " ++ d ++ py " ") ++ ["{"%char].
Proof. unfold new. now rewrite <- !app_assoc. Qed.

Lemma current_no_newline (d : str) :
  ~ In newline d -> ~ In newline (current d).
Proof.
  intros H. unfold current. rewrite !in_app_iff.
  intros [Hin|[Hin|Hin]]; [revert Hin; literal | auto | revert Hin; literal].
Qed.

Lemma head_no_brace (d : str) :
  ~ In "{"%char d -> ~ In "{"%char (py " protocol " ++ d ++ py " ").
Proof.
  intros H. rewrite !in_app_iff.
  intros [Hin|[Hin|Hin]]; [revert Hin; literal | auto | revert Hin; literal].
Qed.

Lemma head_no_brace' (d : str) :
  ~ In "{"%char d -> ~ In "{"%char (py " protocol " ++ d).
Proof.
  intros H. rewrite !in_app_iff.
  intros [Hin|Hin]; [revert Hin; literal | auto].
Qed.

Lemma extension_no_brace (d : str) :
  ~ In "{"%char d -> ~ In "{"%char (py "extension " ++ d ++ py " ").
Proof.
  intros H. rewrite !in_app_iff.
  intros [Hin|[Hin|Hin]]; [revert Hin; literal | auto | revert Hin; literal].
Qed.

Variables d d' : str.
Hypothesis related : d = d' \/ regular d' = true.

(** Three coincidences of texts that the shape of names excludes. *)
Lemma no_trailing_space (v : str) :
  py " protocol " ++ d' <> v ++ py " protocol " ++ d ++ py " ".
Proof.
  intros E. destruct related as [->|Hr].
  - apply (f_equal (@length _)) in E. rewrite !length_app in E.
    simpl in E. lia.
  - apply regular_spec in Hr as (_ & (d0 & e & -> & He) & _).
    change (py " ") with [" "%char] in E.
    rewrite !app_assoc in E. now apply app_inj_tail in E as [_ ->].
Qed.

Lemma extension_is_not_protocol (l : str) :
  py "extension " ++ d' ++ py " " <> l ++ py " protocol " ++ d ++ py " ".
Proof.
  intros E. destruct related as [->|Hr].
  - destruct l as [|c l]; [discriminate E|].
    apply (f_equal (@length _)) in E. rewrite !length_app in E.
    simpl in E. lia.
  - apply regular_spec in Hr as (_ & _ & Hp).
    change (py " ") with [" "%char] in E.
    rewrite !app_assoc in E. apply app_inj_tail in E as [E _].
    rewrite <- app_assoc in E.
    change (py "extension " ++ d')
      with (py "extension" ++ " "%char :: d') in E.
    change (py " protocol " ++ d)
      with (" "%char :: py "protocol " ++ d) in E.
    apply Hp.
    destruct (in_dec ascii_dec " "%char l) as [Hin|Hin].
    + apply split_at_first in Hin as (l1 & l2 & -> & Hn).
      rewrite <- app_assoc in E. cbn [app] in E.
      apply split_first_unique in E as [_ ->]; [|literal|exact Hn].
      exists (l2 ++ [" "%char]), d. now rewrite <- !app_assoc.
    + apply split_first_unique in E as [_ ->]; [|literal|exact Hin].
      now exists [], d.
Qed.

Lemma no_leading_text (u : str) :
  u <> [] ->
  py " protocol " ++ d ++ py " " <> u ++ py " protocol " ++ d'.
Proof.
  intros Hu E. destruct related as [->|Hr].
  - destruct u as [|c [|c' u]]; [contradiction| |].
    + injection E as _ E. discriminate E.
    + apply (f_equal (@length _)) in E. rewrite !length_app in E.
      simpl in E. lia.
  - apply regular_spec in Hr as (_ & (d0 & e & -> & He) & _).
    change (py " ") with [" "%char] in E.
    rewrite !app_assoc in E. apply app_inj_tail in E as [_ <-].
    now apply He.
Qed.

End RuleTexts.

(** ** The rule of a name and the [current] texts of names *)

Section Rules.

Variables d d' : str.
Hypothesis d_brace_free : brace_free d = true.
Hypothesis d'_brace_free : brace_free d' = true.
Hypothesis related : d = d' \/ regular d' = true.

(** [current d] does not start inside [new d']. *)
Lemma current_not_inside (v w rest : str) :
  new d' = v ++ w -> w <> [] ->
  PyStr.startswith (current d) (w ++ rest) = false.
Proof.
  intros Hnew Hw. apply startswith_false. intros z E.
  destruct (brace_free_spec d d_brace_free) as [Hb Hn].
  destruct (brace_free_spec d' d'_brace_free) as [Hb' Hn'].
  rewrite new_split_newline in Hnew.
  apply app_eq_app in Hnew as [l [[Hh Hl]|[Hv Hl]]].
  - (* [w] starts before the line break *)
    subst w. rewrite <- app_assoc in E. cbn [app] in E.
    assert (Hm : exists m, l = current d ++ m).
    { apply app_eq_app in E as [m [[-> _]|[Hc E]]]; [now exists m|].
      destruct m as [|c m].
      - exists []. now rewrite app_nil_r in *.
      - injection E as <- _. elim (current_no_newline d Hn).
        rewrite Hc. apply in_or_app. right. now left. }
    destruct Hm as [m ->]. rewrite current_split in Hh.
    change (py "{ }") with ("{"%char :: py " }") in Hh.
    rewrite <- !app_assoc in Hh. cbn [app] in Hh.
    rewrite !app_assoc in Hh.
    apply split_once_unique in Hh as [Hh _].
    + rewrite <- !app_assoc in Hh.
      now apply (no_trailing_space d d' related v).
    + now apply head_no_brace'.
    + literal.
  - (* [w] starts behind the line break *)
    remember (py "extension " ++ d' ++ py " ") as t eqn:Ht.
    destruct l as [|c l].
    + cbn [app] in Hl. subst w. discriminate E.
    + injection Hl as _ Hl.
      destruct (exists_last Hw) as (w0 & e & ->).
      rewrite app_assoc in Hl. apply app_inj_tail in Hl as [Hl <-].
      rewrite current_split, <- !app_assoc in E. cbn [app] in E.
      rewrite !app_assoc in E.
      apply split_first_unique in E as [E _].
      * rewrite <- !app_assoc in E. subst w0 t.
        now apply (extension_is_not_protocol d d' related l).
      * intros Hin. apply (extension_no_brace d' Hb').
        rewrite <- Ht, Hl. apply in_or_app. now right.
      * rewrite <- !app_assoc. now apply head_no_brace.
Qed.

(** [current d] does not run from the text before a copy of [new d'] into
    it. *)
Lemma current_entering (u x rest : str) :
  current d = u ++ x -> u <> [] -> x <> [] ->
  PyStr.startswith x (new d' ++ rest) = true ->
  PyStr.startswith x (current d') = true.
Proof.
  intros Hc Hu Hx H. exfalso.
  destruct (brace_free_spec d d_brace_free) as [Hb _].
  destruct (brace_free_spec d' d'_brace_free) as [Hb' _].
  destruct (exists_last Hx) as (x0 & e & ->).
  rewrite current_split, (app_assoc u) in Hc.
  apply app_inj_tail in Hc as [Hc <-].
  apply startswith_spec in H as [z H].
  rewrite new_split_brace in H.
  rewrite <- (app_assoc x0), <- (app_assoc (py " protocol " ++ d')) in H.
  cbn [app] in H.
  apply split_first_unique in H as [H _].
  - subst x0. now apply (no_leading_text d d' related u Hu).
  - now apply head_no_brace'.
  - intros Hin. apply (head_no_brace d Hb). rewrite Hc.
    apply in_or_app. now right.
Qed.

Lemma current_not_entering (u x rest : str) :
  current d = u ++ x -> u <> [] -> x <> [] ->
  PyStr.startswith x (new d' ++ rest) = false.
Proof.
  intros Hc Hu Hx.
  destruct (PyStr.startswith x (new d' ++ rest)) eqn:H; [|reflexivity].
  exfalso.
  destruct (brace_free_spec d d_brace_free) as [Hb _].
  destruct (brace_free_spec d' d'_brace_free) as [Hb' _].
  destruct (exists_last Hx) as (x0 & e & ->).
  rewrite current_split, (app_assoc u) in Hc.
  apply app_inj_tail in Hc as [Hc <-].
  apply startswith_spec in H as [z H].
  rewrite new_split_brace in H.
  rewrite <- (app_assoc x0), <- (app_assoc (py " protocol " ++ d')) in H.
  cbn [app] in H.
  apply split_first_unique in H as [H _].
  - subst x0. now apply (no_leading_text d d' related u Hu).
  - now apply head_no_brace'.
  - intros Hin. apply (head_no_brace d Hb). rewrite Hc.
    apply in_or_app. now right.
Qed.

(** The rule of [d'] brings no occurrence of [current d] into a text. *)
Lemma loop_body_keeps_absent (text : str) :
  PyStr.contains (current d) text = false ->
  PyStr.contains (current d) (loop_body text d') = false.
Proof.
  rewrite !contains_false. unfold loop_body.
  apply replace_keeps_absent.
  - apply current_nonempty.
  - apply current_nonempty.
  - apply new_nonempty.
  - apply current_not_inside.
  - apply current_entering.
Qed.

End Rules.

(** After the rule of a name without opening brace and line break, the
    [current] text of the name is gone. *)
Lemma loop_body_clears (d text : str) :
  brace_free d = true ->
  PyStr.contains (current d) (loop_body text d) = false.
Proof.
  intros Hd. apply contains_false. unfold loop_body.
  apply replace_clears.
  - apply current_nonempty.
  - apply new_nonempty.
  - apply current_not_inside; auto.
  - apply current_entering; auto.
Qed.

(** The rules of regular names bring no occurrence of the [current] text
    of a name without opening brace and line break into a text. *)
Lemma loop_keeps_absent (d : str) (names : list str) (text : str) :
  brace_free d = true ->
  forallb regular names = true ->
  PyStr.contains (current d) text = false ->
  PyStr.contains (current d) (fold_left loop_body names text) = false.
Proof.
  intros Hd. revert text.
  induction names as [|d' names IH]; intros text Hn H; [exact H|].
  cbn [forallb] in Hn. apply andb_true_iff in Hn as [Hd' Hn].
  cbn [fold_left]. apply IH; [exact Hn|].
  apply loop_body_keeps_absent; auto using regular_brace_free.
Qed.

Lemma loop_clears (d : str) (names : list str) (text : str) :
  forallb regular names = true ->
  In d names ->
  PyStr.contains (current d) (fold_left loop_body names text) = false.
Proof.
  revert text. induction names as [|d' names IH]; intros text Hn Hin;
    [contradiction|].
  cbn [forallb] in Hn. apply andb_true_iff in Hn as [Hd' Hn].
  cbn [fold_left]. destruct (str_eq_dec d' d) as [->|Hne].
  - apply loop_keeps_absent; auto using regular_brace_free.
    apply loop_body_clears. now apply regular_brace_free.
  - destruct Hin as [Hin|Hin]; [contradiction|]. now apply IH.
Qed.

(** ** The replaced text, segment by segment *)

Lemma contains_short (p s : str) :
  length s < length p -> PyStr.contains p s = false.
Proof.
  intros Hl. apply contains_false. intros (a & b & ->).
  rewrite !length_app in Hl. lia.
Qed.

Lemma length_removelast (p : str) :
  p <> [] -> length p = S (length (removelast p)).
Proof.
  intros Hp. rewrite (app_removelast_last " "%char Hp) at 1.
  rewrite length_app. simpl. lia.
Qed.

Lemma replaced_segments (old new s r : str) :
  old <> [] ->
  replaced old new s r ->
  exists segs fin,
    s = join old segs fin /\ r = join new segs fin
    /\ leftmost old segs fin = true.
Proof.
  intros Hne. induction 1 as [|t t' Ht IH|c s s' Hc Hs IH].
  - exists [], []. repeat split. unfold leftmost. cbn [forallb andb].
    rewrite contains_short; [reflexivity|].
    destruct old; [contradiction | simpl; lia].
  - destruct IH as (segs & fin & -> & -> & Hl).
    exists ([] :: segs), fin. repeat split.
    unfold leftmost in *. cbn [forallb app].
    rewrite contains_short by (rewrite (length_removelast old Hne); lia).
    exact Hl.
  - destruct IH as (segs & fin & -> & -> & Hl).
    unfold leftmost in Hl. apply andb_true_iff in Hl as [Hsegs Hlast].
    destruct segs as [|g segs].
    + exists [], (c :: fin). repeat split. unfold leftmost.
      cbn [forallb andb join PyStr.contains] in *.
      rewrite Hc. now rewrite orb_false_l.
    + exists ((c :: g) :: segs), fin. repeat split.
      unfold leftmost. cbn [forallb] in *.
      apply andb_true_iff in Hsegs as [Hg Hsegs].
      rewrite Hsegs, Hlast, !andb_true_r. cbn [app PyStr.contains].
      apply negb_true_iff, orb_false_iff. split.
      * destruct (PyStr.startswith old (c :: g ++ removelast old)) eqn:E;
          [|reflexivity].
        apply startswith_spec in E as [r E]. cbn [join] in Hc.
        apply startswith_false with (r := r ++ [last old " "%char]
                                             ++ join old segs fin) in Hc.
        elim Hc. rewrite (app_assoc old r), <- E.
        rewrite <- app_comm_cons, <- !app_assoc. do 2 f_equal.
        rewrite app_assoc. f_equal. now apply app_removelast_last.
      * now apply negb_true_iff in Hg.
Qed.

(** The rule of a name cuts the text at the occurrences of [current] a scan
    finds and writes [new] in their places. *)
Lemma loop_body_segments (d text : str) :
  exists segs fin,
    text = join (current d) segs fin
    /\ leftmost (current d) segs fin = true
    /\ loop_body text d = join (new d) segs fin.
Proof.
  destruct (@replaced_segments (current d) (new d) text _
              (current_nonempty d)
              (@replace_replaced (current d) (new d)
                 (current_nonempty d) text))
    as (segs & fin & H1 & H2 & H3).
  now exists segs, fin.
Qed.

(** ** More on the lazy group *)

Section LazyGroup.

Variable post : str.
Hypothesis post_nonempty : post <> [].

(** The lazy group ends where [post] occurs first: no occurrence of [post]
    starts inside what it captured. *)
Lemma lazy_dot_star_first (s cap : str) :
  Re.lazy_dot_star post s = Some cap ->
  PyStr.contains post (cap ++ removelast post) = false.
Proof.
  revert cap. induction s as [|c s IH]; intros cap; simpl.
  - destruct (PyStr.startswith post []) eqn:E; [|discriminate].
    apply startswith_spec in E as [r E]. symmetry in E.
    apply app_eq_nil in E as [E _]. contradiction.
  - destruct (PyStr.startswith post (c :: s)) eqn:E.
    + intros [= <-]. cbn [app]. apply contains_short.
      rewrite (length_removelast post post_nonempty). lia.
    + destruct (Ascii.eqb c newline); [discriminate|].
      destruct (Re.lazy_dot_star post s) as [cap'|] eqn:El; [|discriminate].
      intros [= <-]. cbn [app PyStr.contains].
      rewrite (IH cap' eq_refl), orb_false_r.
      destruct (PyStr.startswith post (c :: cap' ++ removelast post)) eqn:E';
        [|reflexivity].
      apply lazy_dot_star_sound in El as [[r ->] _].
      apply startswith_spec in E' as [r' E'].
      apply startswith_false
        with (r := r' ++ [last post " "%char] ++ r) in E.
      elim E. rewrite (app_assoc post r'), <- E'.
      rewrite <- app_comm_cons, <- !app_assoc. do 2 f_equal.
      rewrite app_assoc. f_equal. now apply app_removelast_last.
Qed.

Hypothesis post_one_line : ~ In newline post.

Lemma startswith_before_newline (x r : str) :
  PyStr.startswith post (x ++ newline :: r) = true ->
  PyStr.startswith post x = true.
Proof.
  intros [z E]%startswith_spec. apply startswith_spec.
  apply app_eq_app in E as [l [[-> E]|[E E2]]].
  - exists l. reflexivity.
  - destruct l as [|c l].
    + exists []. now rewrite app_nil_r in *.
    + injection E2 as <- _. elim post_one_line. rewrite E.
      apply in_or_app. right. now left.
Qed.

(** The lazy group does not reach a [post] that comes behind the end of the
    line. *)
Lemma lazy_dot_star_line_end (d r : str) :
  PyStr.contains post d = false ->
  Re.lazy_dot_star post (d ++ newline :: r) = None.
Proof.
  induction d as [|c d IH]; intros H.
  - cbn [app Re.lazy_dot_star].
    destruct (PyStr.startswith post (newline :: r)) eqn:E.
    + apply (startswith_before_newline []) in E.
      apply startswith_spec in E as [z E]. symmetry in E.
      apply app_eq_nil in E as [E _]. contradiction.
    + now rewrite Ascii.eqb_refl.
  - cbn [PyStr.contains] in H. apply orb_false_iff in H as [Hs Hc].
    cbn [app Re.lazy_dot_star].
    destruct (PyStr.startswith post (c :: d ++ newline :: r)) eqn:E.
    + apply (startswith_before_newline (c :: d)) in E. congruence.
    + destruct (Ascii.eqb c newline); [reflexivity|].
      now rewrite IH.
Qed.

End LazyGroup.

Lemma findall_first (pre post s d : str) :
  post <> [] ->
  In d (Re.findall pre post s) ->
  PyStr.contains post (d ++ removelast post) = false.
Proof.
  intros Hne (a & t & -> & Ht)%findall_from_sound.
  unfold Re.match_here in Ht.
  destruct (PyStr.startswith pre t); [|discriminate].
  now apply lazy_dot_star_first in Ht.
Qed.

Lemma match_here_line_end (pre post d r : str) :
  post <> [] -> ~ In newline post ->
  PyStr.contains post d = false ->
  Re.match_here pre post (pre ++ d ++ newline :: r) = None.
Proof.
  intros Hne Hnl H. unfold Re.match_here.
  rewrite startswith_app, skipn_app, skipn_all, Nat.sub_diag.
  cbn [app skipn]. now apply lazy_dot_star_line_end.
Qed.

(** The pattern matches somewhere in the text exactly when [re.findall]
    reports something. *)
Lemma matches_pattern_findall (post s : str) :
  matches_pattern post s <-> Re.findall pattern_pre post s <> [].
Proof.
  split.
  - intros (a & d & b & -> & Hn). apply findall_complete; [discriminate|exact Hn].
  - intros H. destruct (Re.findall pattern_pre post s) as [|d l] eqn:E;
      [contradiction|].
    assert (Hin : In d (Re.findall pattern_pre post s))
      by (rewrite E; now left).
    apply findall_sound in Hin as ((a & b & ->) & Hn & _).
    now exists a, d, b.
Qed.

(** ** The loop and the script *)

Lemma length_loop_body (text d : str) :
  length text <= length (loop_body text d).
Proof.
  unfold loop_body.
  apply replaced_length with (old := current d) (new := new d).
  - rewrite length_current, length_new. lia.
  - apply replace_replaced, current_nonempty.
Qed.

Lemma length_loop (names : list str) (text : str) :
  length text <= length (fold_left loop_body names text).
Proof.
  revert text. induction names as [|d names IH]; intros text; [apply le_n|].
  cbn [fold_left]. etransitivity; [apply (length_loop_body text d)|apply IH].
Qed.

Lemma loop_body_unchanged (text d : str) :
  PyStr.contains (current d) text = false -> loop_body text d = text.
Proof.
  intros H. apply replace_absent; [apply current_nonempty|].
  now apply contains_false.
Qed.

Lemma loop_body_changed (text d : str) :
  PyStr.contains (current d) text = true -> loop_body text d <> text.
Proof.
  intros H E. apply contains_spec in H.
  apply (@replaced_longer (current d) (new d) (current_nonempty d) text
           (loop_body text d)) in H.
  - rewrite E in H. lia.
  - rewrite length_current, length_new. lia.
  - apply replace_replaced, current_nonempty.
Qed.


Lemma one_line_spec (d : str) : one_line d = true <-> ~ In newline d.
Proof.
  unfold one_line. rewrite forallb_forall. split.
  - intros H Hin. apply H in Hin. unfold is_newline in Hin.
    now rewrite Ascii.eqb_refl in Hin.
  - intros H c Hc. unfold is_newline.
    destruct (Ascii.eqb c newline) eqn:E; [|reflexivity].
    apply Ascii.eqb_eq in E. now subst c.
Qed.

Lemma data_In (text d : str) :
  In d (data text) <-> In d (allProtocols text) \/ In d (moreProtocols text).
Proof. unfold data. now rewrite fromkeys_In, in_app_iff. Qed.

Lemma data_one_line (text d : str) : In d (data text) -> ~ In newline d.
Proof.
  intros [H|H]%data_In; now apply findall_sound in H.
Qed.

Lemma allProtocols_occur (text d : str) :
  In d (allProtocols text) -> PyStr.contains (current d) text = true.
Proof.
  intros ((a & b & ->) & _)%findall_sound. apply contains_spec.
  exists a, b. unfold current, pattern_pre, pattern_A_post.
  now rewrite <- !app_assoc.
Qed.

(** ** Counting occurrences *)

Lemma occurrences_short (p s : str) :
  length s < length p -> occurrences p s = 0.
Proof.
  induction s as [|c s IH]; intros Hl.
  - destruct p; [simpl in Hl; lia | reflexivity].
  - cbn [occurrences].
    destruct (PyStr.startswith p (c :: s)) eqn:E.
    + apply startswith_length in E. lia.
    + apply IH. simpl in Hl. lia.
Qed.

Lemma occurrences_self (p : str) : p <> [] -> occurrences p p = 1.
Proof.
  intros Hp. destruct p as [|c p]; [contradiction|].
  cbn [occurrences]. pose proof (startswith_app (c :: p) []) as H.
  rewrite app_nil_r in H. rewrite H, occurrences_short; simpl; lia.
Qed.

Lemma occurrences_app_skip (p x y : str) :
  (forall v w, x = v ++ w -> w <> [] ->
               PyStr.startswith p (w ++ y) = false) ->
  occurrences p (x ++ y) = occurrences p y.
Proof.
  induction x as [|c x IH]; intros H; [reflexivity|].
  pose proof (H [] (c :: x) eq_refl) as H0.
  cbn [app occurrences] in *. rewrite H0 by discriminate.
  apply IH. intros v w -> Hw. now apply (H (c :: v) w).
Qed.

(** In the text a rule writes, [extension d {] starts at one place only and
    there is one line break, when the name holds none. *)
Lemma extension_once (d : str) :
  one_line d = true ->
  occurrences (py "extension " ++ d ++ py " {") (new d) = 1.
Proof.
  intros Hd%one_line_spec.
  assert (Hnl : ~ In newline (py "extension " ++ d ++ py " {")).
  { rewrite !in_app_iff.
    intros [H|[H|H]]; [revert H; literal | auto | revert H; literal]. }
  replace (new d)
    with (((py " protocol " ++ d ++ py "{ }") ++ [newline])
            ++ py "extension " ++ d ++ py " {")
    by (unfold new; now rewrite <- !app_assoc).
  rewrite occurrences_app_skip; [apply occurrences_self; discriminate|].
  intros v w E Hw. apply startswith_false. intros z Ez.
  destruct (exists_last Hw) as (w0 & e & ->).
  rewrite (app_assoc v) in E. apply app_inj_tail in E as [E <-].
  rewrite <- app_assoc in Ez. cbn [app] in Ez.
  assert (Hl : exists l, w0 = (py "extension " ++ d ++ py " {") ++ l).
  { apply app_eq_app in Ez as [l [[-> _]|[Hc E2]]]; [now exists l|].
    destruct l as [|c l].
    - exists []. now rewrite app_nil_r in *.
    - injection E2 as <- _. elim Hnl. rewrite Hc.
      apply in_or_app. right. now left. }
  destruct Hl as [l ->].
  destruct v as [|c [|c' v]].
  - discriminate E.
  - injection E as _ E. discriminate E.
  - apply (f_equal (@length _)) in E. rewrite !length_app in E.
    simpl in E. lia.
Qed.

Lemma newline_once (d : str) :
  one_line d = true -> count_occ ascii_dec (new d) newline = 1.
Proof.
  intros Hd%one_line_spec. unfold new. rewrite !count_occ_app.
  rewrite (proj1 (count_occ_not_In ascii_dec d newline) Hd). reflexivity.
Qed.

(** ** What a replacement leaves in place

    [Q], followed by [b], is a text no occurrence of [old] overlaps: none
    starts inside [Q], and none that starts before [Q] runs into it.  Then
    [s.replace(old, new)] works on the text before [Q] and on [b], and
    leaves [Q] between them. *)

Section Untouched.

Variables old new Q b : str.
Hypothesis old_nonempty : old <> [].

Hypothesis not_inside :
  forall v w,
    Q = v ++ w -> w <> [] -> PyStr.startswith old (w ++ b) = false.

Hypothesis not_entering :
  forall u x,
    old = u ++ x -> u <> [] -> x <> [] ->
    PyStr.startswith x (Q ++ b) = false.

Lemma replace_through (v w : str) :
  Q = v ++ w ->
  PyStr.replace old new (w ++ b) = w ++ PyStr.replace old new b.
Proof.
  revert v. induction w as [|c w IH]; intros v E; [reflexivity|].
  cbn [app]. rewrite replace_copy; trivial.
  - f_equal. apply (IH (v ++ [c])). now rewrite <- app_assoc.
  - apply (not_inside v (c :: w) E). discriminate.
Qed.

Lemma replace_before (a : str) :
  PyStr.replace old new (a ++ Q ++ b)
  = PyStr.replace old new a ++ PyStr.replace old new (Q ++ b).
Proof.
  remember (length a) as n eqn:Hn. revert a Hn.
  induction n as [n IH] using lt_wf_ind. intros a ->.
  destruct a as [|c a].
  - now rewrite replace_nil.
  - destruct (PyStr.startswith old ((c :: a) ++ Q ++ b)) eqn:E.
    + apply startswith_app_inv in E as [E|(x & Hx & Eo & E)].
      * apply startswith_spec in E as [a' E]. rewrite E, <- app_assoc.
        rewrite !replace_hit, <- app_assoc by assumption. f_equal.
        apply (IH (length a')); [|reflexivity].
        apply (f_equal (@length _)) in E. rewrite length_app in E.
        destruct old; [contradiction | simpl in *; lia].
      * rewrite (not_entering (c :: a) x Eo) in E;
          [discriminate | discriminate | assumption].
    + assert (E' : PyStr.startswith old (c :: a) = false).
      { apply startswith_false. intros r Er.
        apply startswith_false with (r := r ++ Q ++ b) in E.
        apply E. rewrite Er. now rewrite <- app_assoc. }
      cbn [app] in *. rewrite !replace_copy by assumption.
      cbn [app]. f_equal. apply (IH (length a)); simpl; auto.
Qed.

Lemma replace_around (a : str) :
  PyStr.replace old new (a ++ Q ++ b)
  = PyStr.replace old new a ++ Q ++ PyStr.replace old new b.
Proof.
  rewrite replace_before. f_equal. now apply (replace_through []).
Qed.

End Untouched.

Lemma replace_keeps_present (old new Q s : str) :
  old <> [] ->
  (forall v w rest,
      Q = v ++ w -> w <> [] -> PyStr.startswith old (w ++ rest) = false) ->
  (forall u x rest,
      old = u ++ x -> u <> [] -> x <> [] ->
      PyStr.startswith x (Q ++ rest) = false) ->
  occurs Q s -> occurs Q (PyStr.replace old new s).
Proof.
  intros Hne H1 H2 (a & b & ->).
  rewrite (@replace_around old new Q b Hne
             (fun v w => H1 v w b) (fun u x => H2 u x b)).
  now exists (PyStr.replace old new a), (PyStr.replace old new b).
Qed.

(** What [s.replace(old, new)] writes is in its result as soon as [old] is
    in the text. *)
Lemma replaced_writes (old new s r : str) :
  old <> [] -> replaced old new s r -> occurs old s -> occurs new r.
Proof.
  intros Hne. induction 1 as [|t t' Ht IH|c s s' Hc Hs IH]; intros Ho.
  - destruct Ho as (a & b & E). symmetry in E.
    apply app_eq_nil in E as [_ E]. apply app_eq_nil in E as [E _].
    contradiction.
  - apply occurs_here.
  - apply occurs_cons_inv in Ho as [Ho|Ho]; [congruence|].
    now apply occurs_cons, IH.
Qed.

(** ** The rules of two different regular names *)

(** A name behind a word without space: if the text goes on with a space and
    [protocol ], the name holds [protocol ]. *)
Lemma word_before_protocol (w l d d' : str) :
  ~ In " "%char w ->
  w ++ " "%char :: d = l ++ " "%char :: py "protocol " ++ d' ->
  w = l /\ d = py "protocol " ++ d' \/ occurs (py "protocol ") d.
Proof.
  intros Hw E. destruct (in_dec ascii_dec " "%char l) as [Hin|Hin].
  - right. apply split_at_first in Hin as (l1 & l2 & -> & Hn).
    rewrite <- app_assoc in E. cbn [app] in E.
    apply split_first_unique in E as [_ ->]; [|exact Hw|exact Hn].
    exists (l2 ++ [" "%char]), d'. now rewrite <- !app_assoc.
  - left. now apply split_first_unique in E.
Qed.

(** The place of a name between [ protocol ] and the space behind it is
    fixed, for a name that does not hold [protocol ]. *)
Lemma name_fixed_behind_protocol (d d' u : str) :
  ~ occurs (py "protocol ") d ->
  py " protocol " ++ d ++ py " " = u ++ py " protocol " ++ d' ++ py " " ->
  u = [] /\ d = d'.
Proof.
  intros Hp E.
  change (py " ") with [" "%char] in E.
  rewrite !app_assoc in E. apply app_inj_tail in E as [E _].
  rewrite <- app_assoc in E.
  destruct u as [|c u].
  - split; [reflexivity|]. cbn [app] in E. now apply app_inv_head in E.
  - exfalso. apply Hp.
    change (py " protocol " ++ d)
      with (" "%char :: py "protocol" ++ " "%char :: d) in E.
    change (py " protocol " ++ d')
      with (" "%char :: py "protocol " ++ d') in E.
    injection E as _ E.
    assert (Hw : ~ In " "%char (py "protocol")) by literal.
    destruct (word_before_protocol (py "protocol") u d d' Hw E)
      as [[_ ->]|E']; [|exact E'].
    now exists [], d'.
Qed.

Section RegularRules.

Variables d d' : str.
Hypothesis d_regular : regular d = true.
Hypothesis d'_regular : regular d' = true.
Hypothesis different : d <> d'.

(** No occurrence of [current d'] starts inside [current d]. *)
Lemma current_apart_inside (v w rest : str) :
  current d = v ++ w -> w <> [] ->
  PyStr.startswith (current d') (w ++ rest) = false.
Proof.
  intros E Hw. apply startswith_false. intros z Ez.
  destruct (regular_spec d d_regular) as (Hbf & _ & Hp).
  destruct (regular_spec d' d'_regular) as (Hbf' & _ & _).
  destruct (brace_free_spec d Hbf) as [Hb _].
  destruct (brace_free_spec d' Hbf') as [Hb' _].
  destruct (exists_last Hw) as (w0 & e & ->).
  rewrite current_split, (app_assoc v) in E.
  apply app_inj_tail in E as [E <-].
  rewrite current_split in Ez.
  rewrite <- (app_assoc w0),
    <- (app_assoc (py " protocol " ++ d' ++ py " ")) in Ez.
  cbn [app] in Ez.
  apply split_first_unique in Ez as [Ez _].
  - subst w0.
    apply name_fixed_behind_protocol in E as [_ E]; trivial. contradiction.
  - intros Hin. apply (head_no_brace d Hb). rewrite E.
    apply in_or_app. now right.
  - now apply head_no_brace.
Qed.

(** No occurrence of [current d'] that starts before [current d] runs into
    it. *)
Lemma current_apart_entering (u x rest : str) :
  current d' = u ++ x -> u <> [] -> x <> [] ->
  PyStr.startswith x (current d ++ rest) = false.
Proof.
  intros E Hu Hx. apply startswith_false. intros z Ez.
  destruct (regular_spec d d_regular) as (Hbf & _ & _).
  destruct (regular_spec d' d'_regular) as (Hbf' & _ & Hp').
  destruct (brace_free_spec d Hbf) as [Hb _].
  destruct (brace_free_spec d' Hbf') as [Hb' _].
  destruct (exists_last Hx) as (x0 & e & ->).
  rewrite current_split, (app_assoc u) in E.
  apply app_inj_tail in E as [E <-].
  rewrite current_split in Ez.
  rewrite <- (app_assoc x0),
    <- (app_assoc (py " protocol " ++ d ++ py " ")) in Ez.
  cbn [app] in Ez.
  apply split_first_unique in Ez as [Ez _].
  - subst x0.
    apply name_fixed_behind_protocol in E as [E _]; trivial. contradiction.
  - now apply head_no_brace.
  - intros Hin. apply (head_no_brace d' Hb'). rewrite E.
    apply in_or_app. now right.
Qed.

(** The rule of [d'] leaves the occurrences of [current d] in place. *)
Lemma loop_body_keeps_current (text : str) :
  PyStr.contains (current d) text = true ->
  PyStr.contains (current d) (loop_body text d') = true.
Proof.
  rewrite !contains_spec. unfold loop_body.
  apply replace_keeps_present.
  - apply current_nonempty.
  - apply current_apart_inside.
  - apply current_apart_entering.
Qed.

End RegularRules.

(** The rule of a regular name leaves in place what the rule of a regular
    name wrote. *)
Lemma loop_body_keeps_new (d d' text : str) :
  regular d = true -> regular d' = true ->
  PyStr.contains (new d) text = true ->
  PyStr.contains (new d) (loop_body text d') = true.
Proof.
  intros Hd Hd'. rewrite !contains_spec. unfold loop_body.
  apply replace_keeps_present.
  - apply current_nonempty.
  - intros v w rest. apply current_not_inside;
      auto using regular_brace_free.
  - intros u x rest. apply current_not_entering;
      auto using regular_brace_free.
Qed.

Lemma loop_keeps_new (d : str) (names : list str) (text : str) :
  regular d = true -> forallb regular names = true ->
  PyStr.contains (new d) text = true ->
  PyStr.contains (new d) (fold_left loop_body names text) = true.
Proof.
  intros Hd. revert text.
  induction names as [|d' names IH]; intros text Hn H; [exact H|].
  cbn [forallb] in Hn. apply andb_true_iff in Hn as [Hd' Hn].
  cbn [fold_left]. apply IH; [exact Hn|]. now apply loop_body_keeps_new.
Qed.

Lemma loop_body_writes (d text : str) :
  PyStr.contains (current d) text = true ->
  PyStr.contains (new d) (loop_body text d) = true.
Proof.
  rewrite !contains_spec. unfold loop_body.
  apply replaced_writes; [apply current_nonempty|].
  apply replace_replaced, current_nonempty.
Qed.

Lemma loop_writes (d : str) (names : list str) (text : str) :
  forallb regular names = true -> In d names ->
  PyStr.contains (current d) text = true ->
  PyStr.contains (new d) (fold_left loop_body names text) = true.
Proof.
  revert text. induction names as [|d' names IH]; intros text Hn Hin H;
    [contradiction|].
  cbn [forallb] in Hn. apply andb_true_iff in Hn as [Hd' Hn].
  cbn [fold_left]. destruct (str_eq_dec d' d) as [->|Hne].
  - apply loop_keeps_new; trivial. now apply loop_body_writes.
  - destruct Hin as [Hin|Hin]; [contradiction|].
    apply IH; trivial. apply loop_body_keeps_current; trivial.
    + rewrite forallb_forall in Hn. now apply Hn.
    + congruence.
Qed.

Lemma forallb_plain_regular (names : list str) :
  forallb plain names = true -> forallb regular names = true.
Proof.
  rewrite !forallb_forall. intros H d Hd. now apply plain_regular, H.
Qed.

(** ** The text after several rules, piece by piece *)

Lemma join_mjoin (f : str -> str) (d : str) (segs : list str) (fin : str) :
  join (f d) segs fin = mjoin f (map (fun g => (g, d)) segs) fin.
Proof.
  induction segs as [|g segs IH]; [reflexivity|].
  cbn [join map mjoin]. now rewrite IH.
Qed.

Lemma mjoin_app (f : str -> str) (p1 p2 : list (str * str)) (fin : str) :
  mjoin f (p1 ++ p2) fin = mjoin f p1 (mjoin f p2 fin).
Proof.
  induction p1 as [|[g m] p1 IH]; [reflexivity|].
  cbn [app mjoin]. now rewrite IH.
Qed.

Lemma join_app (sep : str) (segs : list str) (x y : str) :
  join sep segs (x ++ y) = join sep segs x ++ y.
Proof.
  induction segs as [|g segs IH]; [reflexivity|].
  cbn [join]. now rewrite IH, <- !app_assoc.
Qed.

(** One more rule: the pieces are cut further at the occurrences the rule
    replaces, and what earlier rules wrote stays. *)
Lemma loop_body_mjoin (d : str) (all : list str)
  (pieces : list (str * str)) (fin : str) :
  forallb regular all = true -> In d all ->
  Forall (fun p => In (snd p) all) pieces ->
  exists pieces' fin',
    Forall (fun p => In (snd p) all) pieces'
    /\ mjoin current pieces fin = mjoin current pieces' fin'
    /\ loop_body (mjoin new pieces fin) d = mjoin new pieces' fin'.
Proof.
  intros Hall Hd. rewrite forallb_forall in Hall.
  induction pieces as [|[g m] pieces IH]; intros Hp.
  - destruct (loop_body_segments d fin) as (segs & fin' & Et & _ & Er).
    exists (map (fun g => (g, d)) segs), fin'. repeat split.
    + apply Forall_forall. intros p (g & <- & _)%in_map_iff. exact Hd.
    + cbn [mjoin]. now rewrite <- join_mjoin.
    + cbn [mjoin]. now rewrite <- join_mjoin.
  - inversion Hp as [|? ? Hm Hp']; subst. cbn [snd] in Hm.
    destruct (IH Hp') as (pieces' & fin' & Hf & Ec & En).
    destruct (loop_body_segments d g) as (segs & fin_g & Eg & _ & Er).
    exists (map (fun s => (s, d)) segs ++ (fin_g, m) :: pieces'), fin'.
    repeat split.
    + apply Forall_app. split.
      * apply Forall_forall. intros p (s & <- & _)%in_map_iff. exact Hd.
      * constructor; [exact Hm | exact Hf].
    + rewrite mjoin_app, <- join_mjoin. cbn [mjoin].
      rewrite join_app, <- Eg, <- Ec. reflexivity.
    + cbn [mjoin]. unfold loop_body at 1.
      rewrite (@replace_around (current d) (new d) (new m)
                 (mjoin new pieces fin) (current_nonempty d)).
      * fold (loop_body g d). fold (loop_body (mjoin new pieces fin) d).
        rewrite Er, En, mjoin_app, <- join_mjoin. cbn [mjoin].
        now rewrite join_app.
      * intros v w. apply current_not_inside;
          auto using regular_brace_free.
      * intros u x. apply current_not_entering;
          auto using regular_brace_free.
Qed.

Lemma loop_mjoin (names all : list str)
  (pieces : list (str * str)) (fin : str) :
  forallb regular all = true -> incl names all ->
  Forall (fun p => In (snd p) all) pieces ->
  exists pieces' fin',
    Forall (fun p => In (snd p) all) pieces'
    /\ mjoin current pieces fin = mjoin current pieces' fin'
    /\ fold_left loop_body names (mjoin new pieces fin)
       = mjoin new pieces' fin'.
Proof.
  intros Hall. revert pieces fin.
  induction names as [|d names IH]; intros pieces fin Hi Hp.
  - now exists pieces, fin.
  - cbn [fold_left].
    destruct (loop_body_mjoin d all pieces fin Hall) as
      (pieces1 & fin1 & Hp1 & Ec1 & En1);
      [apply Hi; now left | exact Hp |].
    destruct (IH pieces1 fin1) as (pieces2 & fin2 & Hp2 & Ec2 & En2);
      [intros x Hx; apply Hi; now right | exact Hp1 |].
    exists pieces2, fin2. repeat split; [exact Hp2 | congruence |].
    now rewrite En1.
Qed.

(** * The claims *)

(** C1, as the claim states it, fails: on ["foo protocol Sample { bar }"] the
    script does not return the text with a space between the line break and
    [extension]. *)
Lemma C1_counterexample_space_before_extension :
  rewriteProtocols (py "foo protocol Sample { bar }")
  <> py "foo protocol Sample{ }" ++ [newline]
       ++ py " extension Sample { bar }".
Proof. vm_compute. discriminate. Qed.

(** C1, amended: the rule of a name [D] replaces every occurrence of
    [ protocol D {] that a scan from the left finds in the current text (all
    of them, not only the first) by [ protocol D{ }], a line break and
    [extension D {], with no space before [extension]; the text returned is
    the text read after the rules of all names of [data], in that order; on
    ["foo protocol Sample { bar }"] the script returns
    ["foo protocol Sample{ }\nextension Sample { bar }"]. *)
Theorem C1_substitution_replaces_every_occurrence (D text : str) :
  (exists segs fin,
      text = join (py " protocol " ++ D ++ py " {") segs fin
      /\ leftmost (py " protocol " ++ D ++ py " {") segs fin = true
      /\ loop_body text D
         = join (py " protocol " ++ D ++ py "{ }" ++ [newline]
                    ++ py "extension " ++ D ++ py " {") segs fin)
  /\ rewriteProtocols text = fold_left loop_body (data text) text
  /\ rewriteProtocols (py "foo protocol Sample { bar }")
     = py "foo protocol Sample{ }" ++ [newline]
         ++ py "extension Sample { bar }".
Proof.
  split; [|split].
  - exact (loop_body_segments D text).
  - reflexivity.
  - vm_compute. reflexivity.
Qed.

(** C2, as the claim states it, fails: on its input Pattern A captures
    [OnlyColon : SomeBase], whose [current] text is in the input, and the
    text is rewritten although [ protocol OnlyColon {] occurs nowhere. *)
Lemma C2_counterexample_colon_form_is_rewritten :
  PyStr.contains (py " protocol OnlyColon {")
    (py " protocol OnlyColon : SomeBase { }") = false
  /\ rewriteProtocols (py " protocol OnlyColon : SomeBase { }")
     <> py " protocol OnlyColon : SomeBase { }".
Proof. split; [vm_compute; reflexivity | vm_compute; discriminate]. Qed.

(** C2, amended: the rule of a name [D] whose form [ protocol D {] does not
    occur in the current text substitutes nothing and returns the text as it
    is.  On the input of the claim the names are [OnlyColon : SomeBase] and
    [OnlyColon]; with the opening brace on the next line the only name is
    [OnlyColon] and the text is returned unchanged. *)
Theorem C2_name_without_literal_form_substitutes_nothing (D doc : str) :
  PyStr.contains (py " protocol " ++ D ++ py " {") doc = false ->
  loop_body doc D = doc
  /\ data (py " protocol OnlyColon : SomeBase { }")
     = [py "OnlyColon : SomeBase"; py "OnlyColon"]
  /\ data (py " protocol OnlyColon : SomeBase" ++ [newline] ++ py "{ }")
     = [py "OnlyColon"]
  /\ rewriteProtocols
       (py " protocol OnlyColon : SomeBase" ++ [newline] ++ py "{ }")
     = py " protocol OnlyColon : SomeBase" ++ [newline] ++ py "{ }".
Proof.
  intros H. split; [|split; [|split]].
  - now apply loop_body_unchanged.
  - vm_compute. reflexivity.
  - vm_compute. reflexivity.
  - vm_compute. reflexivity.
Qed.

Lemma C2_witness :
  PyStr.contains (py " protocol " ++ py "OnlyColon" ++ py " {")
    (py " protocol OnlyColon : SomeBase" ++ [newline] ++ py "{ }") = false
  /\ loop_body
       (py " protocol OnlyColon : SomeBase" ++ [newline] ++ py "{ }")
       (py "OnlyColon")
     = py " protocol OnlyColon : SomeBase" ++ [newline] ++ py "{ }".
Proof.
  assert (H : PyStr.contains (py " protocol " ++ py "OnlyColon" ++ py " {")
                (py " protocol OnlyColon : SomeBase" ++ [newline]
                    ++ py "{ }") = false)
    by (vm_compute; reflexivity).
  split; [exact H|].
  exact (proj1 (C2_name_without_literal_form_substitutes_nothing
                  (py "OnlyColon") _ H)).
Defined.

(** C3: the names the loop goes through, [data], are the captures of
    Pattern A in document order followed by those of Pattern B in document
    order, reduced to the first occurrence of each value in first-occurrence
    order; every capture is the text between [ protocol ] and its
    terminator, the leftmost match coming first and the scan resuming behind
    it; a captured name is in [data] exactly once, so that a name whose form
    appears three times is processed once. *)
Theorem C3_names_are_first_occurrences (text : str) :
  data text = first_occurrences (allProtocols text ++ moreProtocols text)
  /\ NoDup (data text)
  /\ (forall D, In D (data text)
                <-> In D (allProtocols text ++ moreProtocols text))
  /\ (forall D, In D (allProtocols text ++ moreProtocols text) ->
                count_occ str_eq_dec (data text) D = 1)
  /\ (forall D, In D (allProtocols text) ->
                exists a b, text = a ++ py " protocol " ++ D ++ py " {" ++ b)
  /\ (forall D, In D (moreProtocols text) ->
                exists a b, text = a ++ py " protocol " ++ D ++ py " : " ++ b)
  /\ (forall c s,
         allProtocols (c :: s)
         = match Re.match_here (py " protocol ") (py " {") (c :: s) with
           | Some D =>
               D :: allProtocols (skipn (10 + length D + 2) (c :: s))
           | None => allProtocols s
           end)
  /\ (forall c s,
         moreProtocols (c :: s)
         = match Re.match_here (py " protocol ") (py " : ") (c :: s) with
           | Some D =>
               D :: moreProtocols (skipn (10 + length D + 3) (c :: s))
           | None => moreProtocols s
           end)
  /\ rewriteProtocols text = fold_left loop_body (data text) text
  /\ allProtocols (py " protocol X { a } protocol X { b } protocol X { c }")
     = [py "X"; py "X"; py "X"]
  /\ data (py " protocol X { a } protocol X { b } protocol X { c }")
     = [py "X"]
  /\ rewriteProtocols
       (py " protocol X { a } protocol X { b } protocol X { c }")
     = py " protocol X{ }" ++ [newline] ++ py "extension X { a }"
         ++ py " protocol X{ }" ++ [newline] ++ py "extension X { b }"
         ++ py " protocol X{ }" ++ [newline] ++ py "extension X { c }".
Proof.
  split; [apply fromkeys_first_occurrences|].
  split; [apply fromkeys_NoDup|].
  split; [intros D; apply fromkeys_In|].
  split.
  { intros D HD. apply NoDup_count_occ'; [apply fromkeys_NoDup|].
    now apply fromkeys_In. }
  split; [intros D HD; now apply findall_sound in HD|].
  split; [intros D HD; now apply findall_sound in HD|].
  split.
  { intros c s.
    exact (findall_scan (py " protocol ") (py " {") c s
             ltac:(discriminate)). }
  split.
  { intros c s.
    exact (findall_scan (py " protocol ") (py " : ") c s
             ltac:(discriminate)). }
  split; [reflexivity|].
  split; [vm_compute; reflexivity|].
  split; vm_compute; reflexivity.
Qed.

(** C4, as the claim states it, fails: the text
    [ protocol { protocol { protocol {] has the single name [{ protocol]; its
    rule replaces the first occurrence of [ protocol { protocol {], and the
    end of the text written together with the rest of the input is that
    literal again, in the text after the rule and in the text returned. *)
Lemma C4_counterexample_literal_remains :
  data (py " protocol { protocol { protocol {") = [py "{ protocol"]
  /\ PyStr.contains (py " protocol " ++ py "{ protocol" ++ py " {")
       (loop_body (py " protocol { protocol { protocol {") (py "{ protocol"))
     = true
  /\ PyStr.contains (py " protocol " ++ py "{ protocol" ++ py " {")
       (rewriteProtocols (py " protocol { protocol { protocol {"))
     = true.
Proof. repeat split; vm_compute; reflexivity. Qed.

(** C4, amended: for a name [D] that holds no opening brace and no line
    break, the text right after the rule of [D] has no substring
    [ protocol D {], whatever the text before: every occurrence the scan
    found has become [ protocol D{ }], line break, [extension D {]; and when
    every name of [data] is regular (not empty, no opening brace, no line
    break, not ending in a space, not holding [protocol ]), the text
    returned has no substring [ protocol D {] for any name [D] of [data]. *)
Theorem C4_no_literal_remains (D : str) :
  brace_free D = true ->
  (forall doc,
      PyStr.contains (py " protocol " ++ D ++ py " {") (loop_body doc D)
      = false)
  /\ (forall doc,
         exists segs fin,
           doc = join (py " protocol " ++ D ++ py " {") segs fin
           /\ leftmost (py " protocol " ++ D ++ py " {") segs fin = true
           /\ loop_body doc D
              = join (py " protocol " ++ D ++ py "{ }" ++ [newline]
                         ++ py "extension " ++ D ++ py " {") segs fin)
  /\ (forall text,
         forallb regular (data text) = true ->
         In D (data text) ->
         PyStr.contains (py " protocol " ++ D ++ py " {")
           (rewriteProtocols text) = false).
Proof.
  intros HD. split; [|split].
  - intros doc. now apply loop_body_clears.
  - intros doc. exact (loop_body_segments D doc).
  - intros text Hp Hin. now apply loop_clears.
Qed.

Lemma C4_witness :
  brace_free (py "Shape : Animatable, View") = true
  /\ data (py " protocol Shape : Animatable, View { }"
              ++ [newline] ++ py " protocol Gesture { }")
     = [py "Shape : Animatable, View"; py "Gesture"; py "Shape"]
  /\ PyStr.contains
       (py " protocol " ++ py "Shape : Animatable, View" ++ py " {")
       (rewriteProtocols
          (py " protocol Shape : Animatable, View { }"
             ++ [newline] ++ py " protocol Gesture { }")) = false.
Proof.
  assert (H : brace_free (py "Shape : Animatable, View") = true)
    by (vm_compute; reflexivity).
  split; [exact H|]. split; [vm_compute; reflexivity|].
  refine (proj2 (proj2 (C4_no_literal_remains
                          (py "Shape : Animatable, View") H))
            (py " protocol Shape : Animatable, View { }"
               ++ [newline] ++ py " protocol Gesture { }") _ _).
  - vm_compute. reflexivity.
  - vm_compute. left. reflexivity.
Defined.

(** C5, as the claim states it, fails: the name Pattern A captures in
    [ protocol OnlyColon : SomeBase { }] holds [ : ], and the name Pattern B
    captures in [ protocol A { x : y] holds [ {]. *)
Lemma C5_counterexample_other_terminator_inside :
  allProtocols (py " protocol OnlyColon : SomeBase { }")
  = [py "OnlyColon : SomeBase"]
  /\ PyStr.contains (py " : ") (py "OnlyColon : SomeBase") = true
  /\ moreProtocols (py " protocol A { x : y") = [py "A { x"]
  /\ PyStr.contains (py " {") (py "A { x") = true.
Proof. repeat split; vm_compute; reflexivity. Qed.

(** C5, amended: a name captured by Pattern A holds no [ {] and a name
    captured by Pattern B holds no [ : ]: each capture stops where its own
    terminator occurs first behind [ protocol ], so that no occurrence of the
    terminator starts inside the name. *)
Theorem C5_capture_stops_at_own_terminator (text D : str) :
  (In D (allProtocols text) ->
   PyStr.contains (py " {") D = false
   /\ PyStr.contains (py " {") (D ++ py " ") = false)
  /\ (In D (moreProtocols text) ->
      PyStr.contains (py " : ") D = false
      /\ PyStr.contains (py " : ") (D ++ py " :") = false).
Proof.
  split; intros H.
  - split.
    + apply contains_false. apply findall_sound in H as (_ & _ & H).
      apply H. discriminate.
    + now apply findall_first in H.
  - split.
    + apply contains_false. apply findall_sound in H as (_ & _ & H).
      apply H. discriminate.
    + now apply findall_first in H.
Qed.

Lemma C5_witness :
  PyStr.contains (py " {") (py "OnlyColon : SomeBase") = false
  /\ PyStr.contains (py " : ") (py "OnlyColon") = false.
Proof.
  split.
  - refine (proj1 (proj1 (C5_capture_stops_at_own_terminator
                            (py " protocol OnlyColon : SomeBase { }")
                            (py "OnlyColon : SomeBase")) _)).
    vm_compute. left. reflexivity.
  - refine (proj1 (proj2 (C5_capture_stops_at_own_terminator
                            (py " protocol OnlyColon : SomeBase { }")
                            (py "OnlyColon")) _)).
    vm_compute. left. reflexivity.
Defined.

(** C6, as the claim states it, fails: in [ protocol  {] Pattern A captures
    the empty name, and in [ protocol    {] a name of two spaces; the rule of
    either finds its literal [ protocol D {] in the text and rewrites it. *)
Lemma C6_counterexample_blank_name_is_rewritten :
  data (py " protocol  {") = [ [] ]
  /\ blank [] = true
  /\ rewriteProtocols (py " protocol  {")
     = py " protocol { }" ++ [newline] ++ py "extension  {"
  /\ rewriteProtocols (py " protocol  {") <> py " protocol  {"
  /\ data (py " protocol    {") = [py "  "]
  /\ blank (py "  ") = true
  /\ rewriteProtocols (py " protocol    {") <> py " protocol    {".
Proof.
  repeat split; try (vm_compute; reflexivity); vm_compute; discriminate.
Qed.

(** C6, amended: an empty or whitespace-only name is not validated and is
    treated as any other name: its rule leaves the current text unchanged
    exactly when [ protocol D {] does not occur in it, and changes it
    otherwise; a name captured by Pattern A always has this literal in the
    text read. *)
Theorem C6_blank_name_is_an_ordinary_name (D doc : str) :
  blank D = true ->
  (PyStr.contains (py " protocol " ++ D ++ py " {") doc = false ->
   loop_body doc D = doc)
  /\ (PyStr.contains (py " protocol " ++ D ++ py " {") doc = true ->
      loop_body doc D <> doc)
  /\ (forall text,
         In D (allProtocols text) ->
         PyStr.contains (py " protocol " ++ D ++ py " {") text = true).
Proof.
  intros _. split; [|split].
  - apply loop_body_unchanged.
  - apply loop_body_changed.
  - intros text. apply allProtocols_occur.
Qed.

Lemma C6_witness :
  blank (py "  ") = true
  /\ loop_body (py " protocol    : Base") (py "  ") = py " protocol    : Base"
  /\ loop_body (py " protocol    {") (py "  ") <> py " protocol    {".
Proof.
  assert (H : blank (py "  ") = true) by (vm_compute; reflexivity).
  split; [exact H|]. split.
  - refine (proj1 (C6_blank_name_is_an_ordinary_name
                     (py "  ") (py " protocol    : Base") H) _).
    vm_compute. reflexivity.
  - refine (proj1 (proj2 (C6_blank_name_is_an_ordinary_name
                            (py "  ") (py " protocol    {") H)) _).
    vm_compute. reflexivity.
Defined.

(** C7: a text with no substring of the shape [ protocol <name> {] and none
    of the shape [ protocol <name> : ] (the name within one line) has no
    name, which is no error: the loop makes no turn and the text is returned
    unchanged. *)
Theorem C7_unmatched_text_is_returned_unchanged (text : str) :
  ~ matches_pattern (py " {") text ->
  ~ matches_pattern (py " : ") text ->
  allProtocols text = []
  /\ moreProtocols text = []
  /\ data text = []
  /\ rewriteProtocols text = text.
Proof.
  intros HA HB.
  assert (EA : allProtocols text = []).
  { destruct (allProtocols text) eqn:E; [reflexivity|].
    elim HA. apply matches_pattern_findall.
    unfold allProtocols, pattern_A_post in E. now rewrite E. }
  assert (EB : moreProtocols text = []).
  { destruct (moreProtocols text) eqn:E; [reflexivity|].
    elim HB. apply matches_pattern_findall.
    unfold moreProtocols, pattern_B_post in E. now rewrite E. }
  assert (Ed : data text = []) by (unfold data; now rewrite EA, EB).
  assert (Er : rewriteProtocols text = text)
    by (unfold rewriteProtocols; now rewrite Ed).
  now repeat split.
Qed.

Lemma C7_witness :
  ~ matches_pattern (py " {") (py "struct Foo { var x : Int }")
  /\ ~ matches_pattern (py " : ") (py "struct Foo { var x : Int }")
  /\ rewriteProtocols (py "struct Foo { var x : Int }")
     = py "struct Foo { var x : Int }".
Proof.
  assert (HA : ~ matches_pattern (py " {") (py "struct Foo { var x : Int }")).
  { intros H. apply matches_pattern_findall in H. apply H.
    vm_compute. reflexivity. }
  assert (HB : ~ matches_pattern (py " : ")
                 (py "struct Foo { var x : Int }")).
  { intros H. apply matches_pattern_findall in H. apply H.
    vm_compute. reflexivity. }
  split; [exact HA|]. split; [exact HB|].
  exact (proj2 (proj2 (proj2 (C7_unmatched_text_is_returned_unchanged
                                (py "struct Foo { var x : Int }") HA HB)))).
Defined.

(** C8, as the claim states it, fails on the text returned: in
    [ protocol X protocol Y { protocol Y {] the names are [X protocol Y] and
    [Y]; the rule of the first writes [extension X protocol Y {], in which
    the rule of [Y] then replaces [ protocol Y {]; the text returned holds
    the rewritten [protocol X protocol Y{ }], and nowhere this text followed
    by a line break and [extension X protocol Y {]. *)
Lemma C8_counterexample_later_rule_rewrites_extension :
  data (py " protocol X protocol Y { protocol Y {")
  = [py "X protocol Y"; py "Y"]
  /\ PyStr.contains (py " protocol X protocol Y {")
       (py " protocol X protocol Y { protocol Y {") = true
  /\ PyStr.contains (py "protocol X protocol Y{ }")
       (rewriteProtocols (py " protocol X protocol Y { protocol Y {"))
     = true
  /\ PyStr.contains
       (py "protocol X protocol Y{ }" ++ [newline]
          ++ py "extension X protocol Y {")
       (rewriteProtocols (py " protocol X protocol Y { protocol Y {"))
     = false
  /\ occurrences (py "extension X protocol Y {")
       (rewriteProtocols (py " protocol X protocol Y { protocol Y {"))
     = 0.
Proof. repeat split; vm_compute; reflexivity. Qed.

(** C8, amended: when every name of [data] is regular (not empty, no
    opening brace, no line break, not ending in a space, not holding
    [protocol ]), the text returned is the text read with occurrences of
    [ protocol D {], [D] a name of [data], rewritten, and every rewritten
    occurrence reads [ protocol D{ }], a single line break, [extension D {];
    a name of [data] whose [ protocol D {] is in the text read is in the text
    returned in this form; the text written for one occurrence holds one
    line break and [extension D {] at one place only.  For other names a
    later rule may rewrite inside the text written. *)
Theorem C8_output_has_protocol_line_break_extension (text : str) :
  forallb regular (data text) = true ->
  (exists pieces fin,
      Forall (fun p => In (snd p) (data text)) pieces
      /\ text = mjoin (fun D => py " protocol " ++ D ++ py " {") pieces fin
      /\ rewriteProtocols text
         = mjoin (fun D => py " protocol " ++ D ++ py "{ }" ++ [newline]
                             ++ py "extension " ++ D ++ py " {")
             pieces fin)
  /\ (forall D,
         In D (data text) ->
         PyStr.contains (py " protocol " ++ D ++ py " {") text = true ->
         PyStr.contains
           (py " protocol " ++ D ++ py "{ }" ++ [newline]
              ++ py "extension " ++ D ++ py " {")
           (rewriteProtocols text) = true)
  /\ (forall D,
         In D (data text) ->
         count_occ ascii_dec
           (py " protocol " ++ D ++ py "{ }" ++ [newline]
              ++ py "extension " ++ D ++ py " {") newline = 1
         /\ occurrences (py "extension " ++ D ++ py " {")
              (py " protocol " ++ D ++ py "{ }" ++ [newline]
                 ++ py "extension " ++ D ++ py " {") = 1).
Proof.
  intros Hr. split; [|split].
  - destruct (loop_mjoin (data text) (data text) [] text Hr)
      as (pieces & fin & Hp & Ec & En);
      [apply incl_refl | constructor |].
    exists pieces, fin. split; [exact Hp|]. split; [exact Ec | exact En].
  - intros D HD H. now apply loop_writes.
  - intros D HD%data_one_line%one_line_spec. split.
    + now apply newline_once.
    + now apply extension_once.
Qed.

Lemma C8_witness :
  forallb regular
    (data (py " protocol Shape : Animatable, View { }"
             ++ [newline] ++ py " protocol Gesture { }")) = true
  /\ PyStr.contains
       (py " protocol " ++ py "Gesture" ++ py "{ }" ++ [newline]
          ++ py "extension " ++ py "Gesture" ++ py " {")
       (rewriteProtocols
          (py " protocol Shape : Animatable, View { }"
             ++ [newline] ++ py " protocol Gesture { }")) = true.
Proof.
  assert (H : forallb regular
                (data (py " protocol Shape : Animatable, View { }"
                         ++ [newline] ++ py " protocol Gesture { }"))
              = true) by (vm_compute; reflexivity).
  split; [exact H|].
  refine (proj1 (proj2 (C8_output_has_protocol_line_break_extension
                          (py " protocol Shape : Animatable, View { }"
                             ++ [newline] ++ py " protocol Gesture { }")
                          H))
            (py "Gesture") _ _).
  - vm_compute. right. left. reflexivity.
  - vm_compute. reflexivity.
Defined.

(** C9: a name of [data] holds no line break, and neither does its literal
    [ protocol D {]: both patterns match within one line.  Where the line
    ends behind [ protocol <name>] before the terminator has occurred, no
    match starts at this declaration; the text [ protocol Foo], line break,
    [ { }] has no name and is returned unchanged. *)
Theorem C9_names_stay_within_one_line (text D : str) :
  In D (data text) ->
  one_line D = true
  /\ one_line (py " protocol " ++ D ++ py " {") = true
  /\ (forall d r,
         PyStr.contains (py " {") d = false ->
         Re.match_here (py " protocol ") (py " {")
           (py " protocol " ++ d ++ newline :: r) = None)
  /\ (forall d r,
         PyStr.contains (py " : ") d = false ->
         Re.match_here (py " protocol ") (py " : ")
           (py " protocol " ++ d ++ newline :: r) = None)
  /\ data (py " protocol Foo" ++ [newline] ++ py " { }") = []
  /\ rewriteProtocols (py " protocol Foo" ++ [newline] ++ py " { }")
     = py " protocol Foo" ++ [newline] ++ py " { }".
Proof.
  intros H%data_one_line.
  split; [now apply one_line_spec|].
  split; [now apply one_line_spec, current_no_newline|].
  split; [intros d r Hd; apply match_here_line_end; trivial;
          [discriminate | literal]|].
  split; [intros d r Hd; apply match_here_line_end; trivial;
          [discriminate | literal]|].
  split; vm_compute; reflexivity.
Qed.

Lemma C9_witness :
  In (py "Sample") (data (py "foo protocol Sample { bar }"))
  /\ one_line (py "Sample") = true.
Proof.
  assert (H : In (py "Sample") (data (py "foo protocol Sample { bar }")))
    by (vm_compute; left; reflexivity).
  split; [exact H|].
  exact (proj1 (C9_names_stay_within_one_line
                  (py "foo protocol Sample { bar }") (py "Sample") H)).
Defined.

(** C10: the text returned is at least as long as the text read: the text a
    rule writes is longer than the text it replaces, so no turn of the loop
    shortens the current text. *)
Theorem C10_returned_text_is_not_shorter (text : str) :
  length text <= length (rewriteProtocols text)
  /\ (forall doc D, length doc <= length (loop_body doc D))
  /\ (forall D, length (current D) < length (new D)).
Proof.
  split; [apply length_loop|]. split; [apply length_loop_body|].
  intros D. rewrite length_current, length_new. lia.
Qed.

(** * Further properties of the script *)

(** ** When the text changes *)

Lemma loop_unchanged (names : list str) (text : str) :
  (forall d, In d names -> PyStr.contains (current d) text = false) ->
  fold_left loop_body names text = text.
Proof.
  induction names as [|d names IH]; intros H; [reflexivity|].
  cbn [fold_left]. rewrite loop_body_unchanged by (apply H; now left).
  apply IH. intros d' Hd'. apply H. now right.
Qed.

Lemma data_head (text d : str) (l : list str) :
  allProtocols text = d :: l -> exists names, data text = d :: names.
Proof.
  intros E. unfold data. rewrite fromkeys_first_occurrences, E.
  unfold first_occurrences. cbn [app keep_unseen].
  destruct (in_dec str_eq_dec d []) as [[]|_]. eauto.
Qed.

Lemma rewriteProtocols_longer (text : str) :
  allProtocols text <> [] -> length text < length (rewriteProtocols text).
Proof.
  intros H. destruct (allProtocols text) as [|d l] eqn:E; [contradiction|].
  destruct (data_head text d l E) as [names En].
  unfold rewriteProtocols. rewrite En. cbn [fold_left].
  apply Nat.lt_le_trans with (m := length (loop_body text d));
    [|apply length_loop].
  apply (@replaced_longer (current d) (new d) (current_nonempty d)).
  - rewrite length_current, length_new. lia.
  - apply replace_replaced, current_nonempty.
  - apply contains_spec, allProtocols_occur. rewrite E. now left.
Qed.

Lemma rewriteProtocols_unchanged (text : str) :
  allProtocols text = [] -> rewriteProtocols text = text.
Proof.
  intros E. apply loop_unchanged. intros d Hd.
  apply contains_false. intros (a & b & ->).
  apply data_In in Hd as [Hd|Hd]; [now rewrite E in Hd|].
  apply findall_sound in Hd as (_ & Hn & _).
  assert (Hm : matches_pattern pattern_A_post (a ++ current d ++ b)).
  { exists a, d, b. split; [|exact Hn].
    unfold current, pattern_pre, pattern_A_post. now rewrite <- !app_assoc. }
  apply matches_pattern_findall in Hm. now apply Hm.
Qed.

(** X1: the text returned differs from the text read exactly when Pattern A
    matches somewhere in the text read, and is then longer; the names that
    Pattern B alone reports substitute nothing. *)
Theorem X1_text_changes_iff_pattern_A_matches (text : str) :
  (rewriteProtocols text = text <-> allProtocols text = [])
  /\ (allProtocols text <> [] ->
      length text < length (rewriteProtocols text))
  /\ (allProtocols text = [] ->
      forall D, In D (moreProtocols text) -> loop_body text D = text).
Proof.
  split; [split|split].
  - intros E. destruct (allProtocols text) as [|d l] eqn:EA; [reflexivity|].
    assert (H : length text < length (rewriteProtocols text))
      by (apply rewriteProtocols_longer; rewrite EA; discriminate).
    rewrite E in H. lia.
  - apply rewriteProtocols_unchanged.
  - apply rewriteProtocols_longer.
  - intros E D HD. apply loop_body_unchanged, contains_false.
    intros (a & b & ->).
    apply findall_sound in HD as (_ & Hn & _).
    assert (Hm : matches_pattern pattern_A_post (a ++ current D ++ b)).
    { exists a, D, b. split; [|exact Hn].
      unfold current, pattern_pre, pattern_A_post.
      now rewrite <- !app_assoc. }
    apply matches_pattern_findall in Hm. now apply Hm.
Qed.

(** ** The order of the names *)

Lemma keep_unseen_ext (seen seen' l : list str) :
  (forall x, In x seen' <-> In x seen) ->
  keep_unseen seen' l = keep_unseen seen l.
Proof.
  revert seen seen'. induction l as [|x l IH]; intros seen seen' H;
    [reflexivity|].
  cbn [keep_unseen].
  destruct (in_dec str_eq_dec x seen') as [Hi|Hi];
    destruct (in_dec str_eq_dec x seen) as [Hs|Hs];
    try (apply H in Hi; contradiction);
    try (apply H in Hs; contradiction).
  - now apply IH.
  - f_equal. apply IH. intros y. simpl. now rewrite H.
Qed.

Lemma keep_unseen_app (seen seen' l1 l2 : list str) :
  (forall x, In x seen' <-> In x l1 \/ In x seen) ->
  keep_unseen seen (l1 ++ l2) = keep_unseen seen l1 ++ keep_unseen seen' l2.
Proof.
  revert seen. induction l1 as [|x l1 IH]; intros seen H.
  - cbn [app keep_unseen]. symmetry. apply keep_unseen_ext.
    intros y. rewrite H. simpl. tauto.
  - cbn [app keep_unseen].
    destruct (in_dec str_eq_dec x seen) as [Hs|Hs].
    + apply IH. intros y. rewrite H. simpl. split; [|tauto].
      intros [[<-|Hy]|Hy]; tauto.
    + cbn [app]. f_equal. apply IH. intros y. rewrite H. simpl. tauto.
Qed.

Lemma keep_unseen_without (excluded seen seen' l : list str) :
  (forall x, In x seen' <-> In x excluded \/ In x seen) ->
  keep_unseen seen' l = without excluded (keep_unseen seen l).
Proof.
  revert seen seen'. induction l as [|x l IH]; intros seen seen' H;
    [reflexivity|].
  cbn [keep_unseen].
  destruct (in_dec str_eq_dec x seen') as [Hi|Hi];
    destruct (in_dec str_eq_dec x seen) as [Hs|Hs].
  - now apply IH.
  - unfold without. cbn [filter]. apply H in Hi as [Hi|Hi]; [|contradiction].
    destruct (in_dec str_eq_dec x excluded) as [_|Hn]; [|contradiction].
    apply IH. intros y. rewrite H. simpl. split; [tauto|].
    intros [Hy|[<-|Hy]]; tauto.
  - elim Hi. apply H. now right.
  - unfold without. cbn [filter].
    destruct (in_dec str_eq_dec x excluded) as [He|_].
    + elim Hi. apply H. now left.
    + f_equal. apply IH. intros y. simpl. rewrite H. tauto.
Qed.

(** X2: the names the loop goes through are the distinct names of Pattern A,
    in the order of their first captures, followed by the distinct names of
    Pattern B that Pattern A did not capture, in the order of theirs. *)
Theorem X2_pattern_A_names_come_first (text : str) :
  data text
  = Dict.fromkeys (allProtocols text)
      ++ without (allProtocols text) (Dict.fromkeys (moreProtocols text)).
Proof.
  unfold data. rewrite !fromkeys_first_occurrences. unfold first_occurrences.
  rewrite (keep_unseen_app [] (allProtocols text)
             (allProtocols text) (moreProtocols text))
    by (intros x; simpl; tauto).
  f_equal. apply keep_unseen_without. intros x. simpl. tauto.
Qed.

(** ** How much a rule adds *)

Lemma length_join (sep : str) (segs : list str) (fin : str) :
  length (join sep segs fin)
  = length (concat segs) + length segs * length sep + length fin.
Proof.
  induction segs as [|s segs IH]; [reflexivity|].
  cbn [join concat length]. rewrite !length_app, IH. lia.
Qed.

Lemma count_join (c : ascii) (sep : str) (segs : list str) (fin : str) :
  count_occ ascii_dec (join sep segs fin) c
  = count_occ ascii_dec (concat segs) c
    + length segs * count_occ ascii_dec sep c
    + count_occ ascii_dec fin c.
Proof.
  induction segs as [|s segs IH]; [reflexivity|].
  cbn [join concat length]. rewrite !count_occ_app, IH. lia.
Qed.

Lemma current_count_newline (d : str) :
  one_line d = true -> count_occ ascii_dec (current d) newline = 0.
Proof.
  intros Hd%one_line_spec. apply count_occ_not_In.
  now apply current_no_newline.
Qed.

(** X3: the rule of a name [D] makes the text longer by 14 characters plus
    the length of [D] for every occurrence it replaces, and, [D] being
    within one line, adds one line break for every occurrence it
    replaces. *)
Theorem X3_rule_growth_per_occurrence (D text : str) :
  exists segs fin,
    text = join (current D) segs fin
    /\ leftmost (current D) segs fin = true
    /\ length (loop_body text D)
       = length text + length segs * (14 + length D)
    /\ (one_line D = true ->
        count_occ ascii_dec (loop_body text D) newline
        = count_occ ascii_dec text newline + length segs).
Proof.
  destruct (loop_body_segments D text) as (segs & fin & Et & Hl & Er).
  exists segs, fin. split; [exact Et|]. split; [exact Hl|].
  subst text. rewrite Er. split.
  - rewrite !length_join, length_current, length_new. nia.
  - intros HD.
    rewrite !count_join, newline_once, current_count_newline by assumption.
    lia.
Qed.

(** ** The script only inserts *)

Lemma subsequence_refl (s : str) : subsequence s s.
Proof. induction s; constructor; assumption. Qed.

Lemma subsequence_push (x s t : str) :
  subsequence s t -> subsequence s (x ++ t).
Proof. intros H. induction x; [exact H | now constructor]. Qed.

Lemma subsequence_app (s s' t t' : str) :
  subsequence s t -> subsequence s' t' -> subsequence (s ++ s') (t ++ t').
Proof.
  intros H H'. induction H; cbn [app]; [exact H' | | ]; now constructor.
Qed.

Lemma subsequence_trans (s t u : str) :
  subsequence s t -> subsequence t u -> subsequence s u.
Proof.
  intros Hst Htu. revert s Hst.
  induction Htu as [|c t u Htu IH|c t u Htu IH]; intros s Hst.
  - exact Hst.
  - inversion Hst; subst.
    + constructor. now apply IH.
    + apply subsequence_insert. now apply IH.
  - apply subsequence_insert. now apply IH.
Qed.

(** The text a rule writes is the text it replaces with [{ }], a line break
    and [extension d] put in front of the last two characters. *)
Lemma current_subsequence_new (d : str) : subsequence (current d) (new d).
Proof.
  unfold current, new.
  apply subsequence_app; [apply subsequence_refl|].
  apply subsequence_app; [apply subsequence_refl|].
  change (py "{ }" ++ [newline] ++ py "extension " ++ d ++ py " {")
    with ((py "{ }" ++ [newline] ++ py "extension ") ++ d ++ py " {").
  apply subsequence_push, subsequence_push, subsequence_refl.
Qed.

Lemma replaced_subsequence (old new s r : str) :
  subsequence old new -> replaced old new s r -> subsequence s r.
Proof.
  intros Hon H. induction H.
  - constructor.
  - now apply subsequence_app.
  - now constructor.
Qed.

Lemma loop_subsequence (names : list str) (text : str) :
  subsequence text (fold_left loop_body names text).
Proof.
  revert text. induction names as [|d names IH]; intros text;
    [apply subsequence_refl|].
  cbn [fold_left]. apply subsequence_trans with (t := loop_body text d);
    [|apply IH].
  apply replaced_subsequence with (old := current d) (new := new d).
  - apply current_subsequence_new.
  - apply replace_replaced, current_nonempty.
Qed.

(** X4: the script only inserts text: the text read is a subsequence of the
    text returned (no character of the input is removed, changed or moved),
    after every turn of the loop and at the end. *)
Theorem X4_script_only_inserts (text : str) :
  subsequence text (rewriteProtocols text)
  /\ (forall doc D, subsequence doc (loop_body doc D)).
Proof.
  split; [apply loop_subsequence|].
  intros doc D. exact (loop_subsequence [D] doc).
Qed.

(** ** Declarations that end up rewritten *)

(** X6: when every name of [data] is plain (not empty, no space, no opening
    brace, no line break), every name that Pattern A captured, and every
    name of [data] whose form [ protocol D {] is in the text read, is in the
    text returned in its rewritten form [ protocol D{ }], line break,
    [extension D {]: no rule undoes or misses what another rule is to
    write. *)
Theorem X6_plain_declarations_end_up_rewritten (text D : str) :
  forallb plain (data text) = true ->
  (In D (data text) ->
   PyStr.contains (py " protocol " ++ D ++ py " {") text = true ->
   PyStr.contains
     (py " protocol " ++ D ++ py "{ }" ++ [newline]
        ++ py "extension " ++ D ++ py " {")
     (rewriteProtocols text) = true)
  /\ (In D (allProtocols text) ->
      PyStr.contains
        (py " protocol " ++ D ++ py "{ }" ++ [newline]
           ++ py "extension " ++ D ++ py " {")
        (rewriteProtocols text) = true).
Proof.
  intros Hp%forallb_plain_regular. split.
  - intros Hin H. now apply loop_writes.
  - intros Hin. apply loop_writes; trivial.
    + apply data_In. now left.
    + now apply allProtocols_occur.
Qed.

Lemma X6_witness :
  forallb plain (data (py "foo protocol Sample { bar }")) = true
  /\ PyStr.contains
       (py " protocol " ++ py "Sample" ++ py "{ }" ++ [newline]
          ++ py "extension " ++ py "Sample" ++ py " {")
       (rewriteProtocols (py "foo protocol Sample { bar }")) = true.
Proof.
  assert (H : forallb plain (data (py "foo protocol Sample { bar }")) = true)
    by (vm_compute; reflexivity).
  split; [exact H|].
  refine (proj2 (X6_plain_declarations_end_up_rewritten
                   (py "foo protocol Sample { bar }") (py "Sample") H) _).
  vm_compute. left. reflexivity.
Defined.

(** ** The order of the rules *)

(** A text cut at the occurrences of [old] the scan finds is replaced
    segment by segment. *)
Lemma replace_join (old new : str) (segs : list str) (fin : str) :
  old <> [] -> leftmost old segs fin = true ->
  PyStr.replace old new (join old segs fin) = join new segs fin.
Proof.
  intros Hne. unfold leftmost. induction segs as [|g segs IH]; intros H.
  - cbn [forallb join andb] in *. apply negb_true_iff in H.
    apply replace_absent; [exact Hne | now apply contains_false].
  - cbn [forallb join] in *.
    apply andb_true_iff in H as [[Hg Hs]%andb_true_iff Hf].
    rewrite replace_first; [|exact Hne | now apply negb_true_iff].
    do 2 f_equal. apply IH. now rewrite Hs, Hf.
Qed.

(** A separator that no occurrence of [old] overlaps stays where it is. *)
Lemma replace_join_untouched (old new Q : str) (segs : list str) (fin : str) :
  old <> [] ->
  (forall v w rest,
      Q = v ++ w -> w <> [] -> PyStr.startswith old (w ++ rest) = false) ->
  (forall u x rest,
      old = u ++ x -> u <> [] -> x <> [] ->
      PyStr.startswith x (Q ++ rest) = false) ->
  PyStr.replace old new (join Q segs fin)
  = join Q (map (PyStr.replace old new) segs) (PyStr.replace old new fin).
Proof.
  intros Hne H1 H2. induction segs as [|g segs IH]; [reflexivity|].
  cbn [join map].
  rewrite (@replace_around old new Q (join Q segs fin) Hne
             (fun v w => H1 v w _) (fun u x => H2 u x _)).
  now rewrite IH.
Qed.

Lemma removelast_current (d : str) :
  removelast (current d) = py " protocol " ++ d ++ py " ".
Proof. rewrite current_split. apply removelast_last. Qed.

(** The rule of a name with no opening brace in it does not reach into a
    [current] text that has lost its brace at the end of the text. *)
Lemma loop_body_before_open_form (d d' g : str) :
  brace_free d = true ->
  loop_body (g ++ removelast (current d)) d'
  = loop_body g d' ++ removelast (current d).
Proof.
  intros Hd. destruct (brace_free_spec d Hd) as [Hb _].
  assert (Hq : ~ In "{"%char (removelast (current d)))
    by (rewrite removelast_current; now apply head_no_brace).
  assert (Hi : forall v w,
             removelast (current d) = v ++ w -> w <> [] ->
             PyStr.startswith (current d') (w ++ []) = false).
  { intros v w E Hw. apply startswith_false. intros z Ez.
    apply Hq. rewrite E. rewrite app_nil_r in Ez. rewrite Ez, current_split.
    rewrite !in_app_iff. right. left. right. now left. }
  assert (He : forall u x,
             current d' = u ++ x -> u <> [] -> x <> [] ->
             PyStr.startswith x (removelast (current d) ++ []) = false).
  { intros u x E Hu Hx. apply startswith_false. intros z Ez.
    destruct (exists_last Hx) as (x0 & e & ->).
    rewrite current_split, (app_assoc u) in E.
    apply app_inj_tail in E as [_ <-].
    apply Hq. rewrite app_nil_r in Ez. rewrite Ez, !in_app_iff.
    left. right. now left. }
  pose proof (@replace_around (current d') (new d')
                (removelast (current d)) [] (current_nonempty d')
                Hi He g) as H.
  rewrite replace_nil, !app_nil_r in H by apply current_nonempty.
  exact H.
Qed.

(** The rules of two plain names can be applied in either order. *)
Lemma loop_body_commute (d d' text : str) :
  plain d = true -> plain d' = true ->
  loop_body (loop_body text d) d' = loop_body (loop_body text d') d.
Proof.
  intros Hd Hd'. destruct (str_eq_dec d d') as [->|Hne]; [reflexivity|].
  destruct (loop_body_segments d text) as (segs & fin & Et & Hl & Er).
  rewrite Er, Et. unfold loop_body at 1 3.
  rewrite (replace_join_untouched (current d') (new d') (new d) segs fin
             (current_nonempty d'));
    [| intros v w rest; apply current_not_inside;
       auto using plain_brace_free, plain_regular
     | intros u x rest; apply current_not_entering;
       auto using plain_brace_free, plain_regular].
  rewrite (replace_join_untouched (current d') (new d') (current d)
             segs fin
             (current_nonempty d'));
    [| intros v w rest; apply current_apart_inside;
       auto using plain_regular
     | intros u x rest; apply current_apart_entering;
       auto using plain_regular].
  unfold loop_body. symmetry. apply replace_join; [apply current_nonempty|].
  unfold leftmost in *. apply andb_true_iff in Hl as [Hs Hf].
  apply andb_true_iff. split.
  - apply forallb_forall. intros g' (g & <- & Hg)%in_map_iff.
    rewrite forallb_forall in Hs. apply Hs in Hg.
    apply negb_true_iff in Hg. apply negb_true_iff.
    change (PyStr.replace (current d') (new d') g) with (loop_body g d').
    rewrite <- loop_body_before_open_form by now apply plain_brace_free.
    apply loop_body_keeps_absent; auto using plain_brace_free, plain_regular.
  - apply negb_true_iff in Hf. apply negb_true_iff.
    change (PyStr.replace (current d') (new d') fin) with (loop_body fin d').
    apply loop_body_keeps_absent; auto using plain_brace_free, plain_regular.
Qed.

Lemma loop_permutation (names names' : list str) :
  Permutation names names' ->
  Forall (fun d => plain d = true) names ->
  forall text,
    fold_left loop_body names text = fold_left loop_body names' text.
Proof.
  induction 1 as [|x l l' Hp IH|x y l|l l' l'' Hp1 IH1 Hp2 IH2];
    intros Hplain text.
  - reflexivity.
  - cbn [fold_left]. apply IH. now inversion Hplain.
  - cbn [fold_left]. f_equal. inversion Hplain as [|? ? Hy Hl]; subst.
    inversion Hl; subst. now apply loop_body_commute.
  - rewrite IH1 by assumption. apply IH2.
    now apply (Permutation_Forall Hp1).
Qed.

(** X7: when every name of [data] is plain, the order in which the loop
    takes the names does not matter: the rules applied in any other order
    give the text returned. *)
Theorem X7_order_of_plain_names_is_irrelevant
  (text : str) (names' : list str) :
  forallb plain (data text) = true ->
  Permutation (data text) names' ->
  rewriteProtocols text = fold_left loop_body names' text
  /\ (forall doc,
         fold_left loop_body (data text) doc
         = fold_left loop_body names' doc).
Proof.
  intros Hp Hperm.
  assert (Hf : Forall (fun d => plain d = true) (data text))
    by (apply Forall_forall; now apply forallb_forall).
  split.
  - now apply loop_permutation.
  - intros doc. now apply loop_permutation.
Qed.

Lemma X7_witness :
  rewriteProtocols (py " protocol A { } protocol B { }")
  = fold_left loop_body [py "B"; py "A"]
      (py " protocol A { } protocol B { }").
Proof.
  refine (proj1 (X7_order_of_plain_names_is_irrelevant
                   (py " protocol A { } protocol B { }")
                   [py "B"; py "A"] _ _)).
  - vm_compute. reflexivity.
  - change (data (py " protocol A { } protocol B { }"))
      with [py "A"; py "B"].
    apply perm_swap.
Defined.
